(** * EPUB-to-audiobook pipeline ([app_short.py]): chunking and WAV merging

    A shallow embedding of the script's pure and stateful parts:
    - [Chunker]: [chunk_text], with the standard-library calls it relies on
      ([re.split] for the pattern [[.!?]\s+], [str.strip], [' '.join]);
    - [Wave]: [add_silence] and [merge_wav_files] over a file system of
      decoded PCM files, with the exceptions that [wave], [struct] and
      [open] raise; what the program leaves to its host (whether a file can
      be created, what has been flushed of a file that is still open, the
      rounding of floats beyond 2^53) is a parameter, [host];
    - [Pipeline]: the loop of [main] around the external synthesis process.

    Python [str] values are sequences of Unicode code points and [bytes]
    values are sequences of bytes; both are kept as lists.  The host is
    little-endian, so that [wave] passes the bytes of the frames on as they
    are. *)

From Stdlib Require Import ZArith NArith List Bool Lia Ascii String DecimalString.
From Stdlib Require Import DecimalN.
From Stdlib.Strings Require Import Byte.
From stdpp Require Import gmap strings list fin_maps.
Import ListNotations.

Local Open Scope Z_scope.

(* ===================================================================== *)
(** ** Text chunking *)
(* ===================================================================== *)

Module Chunker.

(** A Python [str]: its code points, in order. *)
Abbreviation str := (list N).

(** Reading of a literal, for the examples. *)
Definition lit (s : string) : str :=
  List.map N_of_ascii (list_ascii_of_string s).

(** [str.isspace] on one code point, which is also what [\s] matches in a
    [str] pattern: both go through CPython's [Py_UNICODE_ISSPACE]. *)
Definition isspace (c : N) : bool :=
  (((0x09 <=? c) && (c <=? 0x0D)) || ((0x1C <=? c) && (c <=? 0x20))
   || (c =? 0x85) || (c =? 0xA0) || (c =? 0x1680)
   || ((0x2000 <=? c) && (c <=? 0x200A))
   || (c =? 0x2028) || (c =? 0x2029) || (c =? 0x202F)
   || (c =? 0x205F) || (c =? 0x3000))%N.

(** The character class [[.!?]]. *)
Definition is_sentence_end (c : N) : bool :=
  ((c =? 46) || (c =? 33) || (c =? 63))%N.

Definition SPACE : N := 32%N.

(** [re.split(r'[.!?]\s+', text)].  A match starts at a terminator that is
    followed by white space and, [\s+] being greedy, runs over all the white
    space after it; matches are found left to right and do not overlap.  The
    pieces between the matches are returned, the matched text is not.
    [in_match] says that the scan is inside the [\s+] of a match; [piece]
    holds the current piece, last character first. *)
Fixpoint re_split_from (in_match : bool) (piece : str) (text : str)
  : list str :=
  match text with
  | [] => [rev piece]
  | c :: rest =>
      if in_match && isspace c then re_split_from true piece rest
      else if is_sentence_end c
              && match rest with d :: _ => isspace d | [] => false end
      then rev piece :: re_split_from true [] rest
      else re_split_from false (c :: piece) rest
  end.

Definition re_split (text : str) : list str := re_split_from false [] text.

(** [str.strip()] with no argument. *)
Fixpoint lstrip (s : str) : str :=
  match s with
  | c :: rest => if isspace c then lstrip rest else s
  | [] => []
  end.

Definition rstrip (s : str) : str := rev (lstrip (rev s)).

Definition strip (s : str) : str := rstrip (lstrip s).

(** [' '.join(parts)]. *)
Fixpoint join (parts : list str) : str :=
  match parts with
  | [] => []
  | [p] => p
  | p :: rest => p ++ SPACE :: join rest
  end.

(** [len(s)] as a Python integer. *)
Definition len (s : str) : Z := Z.of_nat (List.length s).

(** The three variables the loop of [chunk_text] updates. *)
Record loop_state := LoopState {
  chunks : list str;
  current_chunk : list str;
  current_length : Z
}.

Definition loop_init : loop_state := LoopState [] [] 0.

(** One iteration of [for sentence in sentences]. *)
Definition loop_body (chunk_size : Z) (st : loop_state) (sentence : str)
  : loop_state :=
  let sentence := strip sentence in
  match sentence with
  | [] => st                                            (* continue *)
  | _ =>
    let sentence_length := len sentence in
    let st :=
      if (0 <? current_length st)
         && (chunk_size <? current_length st + sentence_length)
      then LoopState (chunks st ++ [join (current_chunk st)]) [] 0
      else st in
    LoopState (chunks st)
              (current_chunk st ++ [sentence])
              (current_length st + sentence_length + 1)
  end.

(** What follows the loop: the last chunk, if any. *)
Definition loop_finish (st : loop_state) : list str :=
  match current_chunk st with
  | [] => chunks st
  | _ => chunks st ++ [join (current_chunk st)]
  end.

Definition chunk_text (text : str) (chunk_size : Z) : list str :=
  let sentences := re_split text in
  loop_finish (fold_left (loop_body chunk_size) sentences loop_init).

(** The sentences the loop keeps of a list of pieces: the stripped pieces
    that are not empty. *)
Definition kept (pieces : list str) : list str :=
  List.filter (fun s => negb (Nat.eqb (List.length s) 0))
              (List.map strip pieces).

Definition kept_sentences (text : str) : list str := kept (re_split text).

End Chunker.

(* ===================================================================== *)
(** ** WAV files and their merge *)
(* ===================================================================== *)

Module Wave.

(** The exceptions this program can meet. *)
Inductive exn :=
| IndexError            (* [wav_files[0]] on an empty list *)
| FileNotFoundError     (* no such file, or no such directory *)
| OSError               (* another [OSError]: permission denied, ... *)
| WaveError             (* [wave.Error] *)
| EOFError              (* a file that is empty or cut short *)
| StructError           (* [struct.error]: a header field out of range *)
| OverflowError         (* a number too large for a float *)
| ZeroDivisionError
| ValueError.

Inductive result (A : Type) :=
| Ok (a : A)
| Raise (e : exn).
Arguments Ok {A} a.
Arguments Raise {A} e.

(** The fields of [getparams()] the program uses.  ([comptype] is always
    ['NONE'] and [nframes] is the number of whole frames of the data.) *)
Record params := Params {
  nchannels : Z;
  sampwidth : Z;       (* bytes per sample *)
  framerate : Z
}.

(** A file: a wave container with its header fields and the bytes of its
    data chunk, a file that is empty or cut short, or a file of another
    kind. *)
Inductive file :=
| WavFile (p : params) (data : list byte)
| Truncated
| NotWav.

(** The file system: what is stored at each path. *)
Abbreviation fs := (gmap string file).

(** What [open(path, 'wb')] meets. *)
Inductive write_access :=
| Granted
| NoDirectory           (* the directory of the path does not exist *)
| Denied.               (* permission denied, the path is a directory, ... *)

(** What the program depends on and does not decide:
    - whether a file can be created or emptied at a path;
    - what a reader finds at the path of the output while the output is
      open and these bytes have been passed to [writeframes]: it depends on
      how much of them has been flushed;
    - the value of [int(x / 1000)] for an [x] of 2^53 or more in absolute
      value, where the float quotient is rounded; [None] is
      [OverflowError]. *)
Record host := Host {
  access : string -> write_access;
  seen : params -> list byte -> file;
  inexact_quot : Z -> option Z
}.

Definition framesize (p : params) : Z := nchannels p * sampwidth p.

(** [Wave_read] refuses a header with no channel or no sample width. *)
Definition readable (p : params) : bool :=
  (1 <=? nchannels p) && (1 <=? sampwidth p).

(** [Wave_write.setparams] refuses these. *)
Definition writable (p : params) : bool :=
  (1 <=? nchannels p) && (1 <=? sampwidth p) && (sampwidth p <=? 4)
  && (1 <=? framerate p).

(** The header is packed with [struct.pack('<L4s4sLHHLLHH4s', ...)] and
    ['<L']: the length of the data plus 36, the frame rate and the byte rate
    are unsigned 32-bit fields, the number of channels and the block
    alignment unsigned 16-bit fields. *)
Definition header_fits (p : params) (datalength : Z) : bool :=
  (36 + datalength <? 2 ^ 32)
  && (nchannels p <? 2 ^ 16)
  && (framerate p <? 2 ^ 32)
  && (nchannels p * framerate p * sampwidth p <? 2 ^ 32)
  && (nchannels p * sampwidth p <? 2 ^ 16).

(** What [wave.open(..., 'rb')] makes of the content of a path. *)
Definition decode (content : option file) : result (params * list byte) :=
  match content with
  | None => Raise FileNotFoundError
  | Some Truncated => Raise EOFError
  | Some NotWav => Raise WaveError
  | Some (WavFile p data) =>
      if readable p then Ok (p, data) else Raise WaveError
  end.

(** [wave.open(path, 'rb')]. *)
Definition wave_open_rb (sigma : fs) (path : string)
  : result (params * list byte) :=
  decode (sigma !! path).

(** [getnframes()]: the data chunk holds this many whole frames. *)
Definition getnframes (p : params) (data : list byte) : Z :=
  Z.of_nat (List.length data) / framesize p.

(** [readframes(n)]: the bytes of the first [n] frames. *)
Definition readframes (p : params) (data : list byte) (n : Z) : list byte :=
  take (Z.to_nat (n * framesize p)) data.

(** [input_wav.readframes(input_wav.getnframes())]. *)
Definition all_frames (seg : params * list byte) : list byte :=
  readframes (fst seg) (snd seg) (getnframes (fst seg) (snd seg)).

(** [int(sample_rate * duration_ms / 1000)].  The product of two integers
    is exact; [/] gives the float nearest to the quotient and [int]
    truncates it toward zero.  Below 2^53 in absolute value this is the
    integer quotient; from there on the host decides. *)
Definition silence_frames (h : host) (duration_ms sample_rate : Z)
  : result Z :=
  let x := sample_rate * duration_ms in
  if Z.abs x <? 2 ^ 53 then Ok (Z.quot x 1000)
  else match inexact_quot h x with
       | Some n => Ok n
       | None => Raise OverflowError
       end.

(** [add_silence]; [b'\x00' * n] is empty for a negative [n]. *)
Definition add_silence (h : host)
    (duration_ms sample_rate channels sampwidth : Z) : result (list byte) :=
  match silence_frames h duration_ms sample_rate with
  | Ok num_frames =>
      Ok (repeat x00 (Z.to_nat (num_frames * channels * sampwidth)))
  | Raise e => Raise e
  end.

(** The output while it is written: whether its header has been written,
    and the data a reader of the finished file would get. *)
Record writer := Writer {
  header_written : bool;
  written : list byte
}.

(** [output_wav.writeframes(data)].  The first call writes the header;
    [setparams] was given the frame count of the first file and the first
    call passes the frames of that file, so the header is written for the
    length of [data].  A later call writes [data] and then patches the two
    length fields of the header, unless [data] is empty; when the new
    length does not fit, the header keeps the old one. *)
Definition writeframes (p : params) (wr : writer) (data : list byte)
  : result writer :=
  if header_written wr then
    match data with
    | [] => Ok wr
    | _ =>
        if 36 + Z.of_nat (List.length (written wr ++ data)) <? 2 ^ 32
        then Ok (Writer true (written wr ++ data))
        else Raise StructError
    end
  else
    if header_fits p (Z.of_nat (List.length data))
    then Ok (Writer true data)
    else Raise StructError.

(** [wave.open(wav_file, 'rb')] inside the loop.  The output has been
    emptied when it was opened: until its header is written, a reader of
    its path finds an empty file, and afterwards what the host has
    flushed. *)
Definition open_input (h : host) (sigma : fs) (output_path : string)
    (p : params) (wr : writer) (wav_file : string)
  : result (params * list byte) :=
  if String.eqb wav_file output_path
  then decode (Some (if header_written wr then seen h p (written wr)
                     else Truncated))
  else wave_open_rb sigma wav_file.

(** The loop [for i, wav_file in enumerate(wav_files)], from index [i] on.
    [total] is [len(wav_files)].  The loop stops at the first exception. *)
Fixpoint merge_loop (h : host) (sigma : fs) (output_path : string)
    (p : params) (pause : Z) (total : Z) (i : Z) (wav_files : list string)
    (wr : writer) : writer * option exn :=
  match wav_files with
  | [] => (wr, None)
  | wav_file :: rest =>
      match open_input h sigma output_path p wr wav_file with
      | Raise e => (wr, Some e)
      | Ok seg =>
          match writeframes p wr (all_frames seg) with
          | Raise e => (wr, Some e)
          | Ok wr =>
              if i <? total - 1 then
                match add_silence h pause (framerate p) (nchannels p)
                                  (sampwidth p) with
                | Raise e => (wr, Some e)
                | Ok silence =>
                    match writeframes p wr silence with
                    | Raise e => (wr, Some e)
                    | Ok wr =>
                        merge_loop h sigma output_path p pause total (i + 1)
                                   rest wr
                    end
                end
              else
                merge_loop h sigma output_path p pause total (i + 1) rest wr
          end
      end
  end.

(** Leaving the [with] block closes the output, also on an exception.  If
    no header has been written yet, [close] writes one for [nframes] frames
    of no data; an exception of [close] replaces the one in flight. *)
Definition close_writer (p : params) (nframes : Z) (wr : writer)
    (err : option exn) : file * option exn :=
  if header_written wr then (WavFile p (written wr), err)
  else if header_fits p (nframes * framesize p) then (WavFile p [], err)
  else (Truncated, Some StructError).

(** [merge_wav_files].  Opening the output for writing creates or empties
    it at once; what it holds in the end is decided when it is closed. *)
Definition merge_wav_files (h : host) (wav_files : list string)
    (output_path : string) (pause_between_chunks_ms : Z) (sigma : fs)
  : fs * result unit :=
  match wav_files with
  | [] => (sigma, Raise IndexError)
  | first :: _ =>
      match wave_open_rb sigma first with
      | Raise e => (sigma, Raise e)
      | Ok (p, data) =>
          match access h output_path with
          | NoDirectory => (sigma, Raise FileNotFoundError)
          | Denied => (sigma, Raise OSError)
          | Granted =>
              if writable p then
                let '(wr, err) :=
                  merge_loop h sigma output_path p pause_between_chunks_ms
                             (Z.of_nat (List.length wav_files)) 0 wav_files
                             (Writer false []) in
                let '(final, err) :=
                  close_writer p (getnframes p data) wr err in
                (<[output_path := final]> sigma,
                 match err with
                 | Some e => Raise e
                 | None => Ok tt
                 end)
              else (<[output_path := Truncated]> sigma, Raise WaveError)
          end
      end
  end.

(** Blocks of bytes one after the other, with [sep] between two
    neighbours. *)
Fixpoint sep_concat (sep : list byte) (blocks : list (list byte))
  : list byte :=
  match blocks with
  | [] => []
  | [b] => b
  | b :: rest => b ++ sep ++ sep_concat sep rest
  end.

(** The sum of the frame counts of some segments. *)
Definition total_frames (segs : list (params * list byte)) : Z :=
  fold_right (fun seg acc => getnframes (fst seg) (snd seg) + acc) 0 segs.

(** [path] holds the segment [seg], in a form [wave] can read. *)
Definition holds (sigma : fs) (path : string) (seg : params * list byte)
  : Prop :=
  sigma !! path = Some (WavFile (fst seg) (snd seg))
  /\ readable (fst seg) = true.

(** The frame count the specification gives for a pause: the quotient
    rounded to the nearest integer, [round(r * p / 1000)], halves upward. *)
Definition spec_round_frames (duration_ms sample_rate : Z) : Z :=
  (2 * (sample_rate * duration_ms) + 1000) / 2000.

End Wave.

(* ===================================================================== *)
(** ** The pipeline of [main] *)
(* ===================================================================== *)

Module Pipeline.
Import Chunker Wave.

Definition CHUNK_SIZE : Z := 2500.
Definition OUTPUT_DIR : string := "./audio_chunks".
Definition FINAL_OUTPUT : string := "./final_audiobook.wav".
Definition PAUSE_BETWEEN_CHUNKS_MS : Z := 1000.

(** [f"{i:04d}"] for the chunk numbers, which are positive. *)
Definition format_04d (i : Z) : string :=
  let digits := NilEmpty.string_of_uint (N.to_uint (Z.to_N i)) in
  String.append
    (string_of_list_ascii (repeat "0"%char (4 - String.length digits)%nat))
    digits.

(** [os.path.join(OUTPUT_DIR, f"chunk_{i:04d}.wav")]. *)
Definition chunk_path (i : Z) : string :=
  String.append OUTPUT_DIR
    (String.append "/chunk_" (String.append (format_04d i) ".wav")).

(** How one run of the synthesis process ends: with exit status zero,
    having left a file at [--res-wav-path] or not; with another exit status
    ([CalledProcessError]); or [subprocess.run] raises another exception
    (the program cannot be started, the text cannot be passed, ...). *)
Inductive answer :=
| Exit0 (left : option file)
| ExitError
| Crash (e : exn).

(** The synthesis engine is an external process.  Its answer may change
    from one call to the next, so it is given the number of calls made
    before. *)
Definition engine := nat -> str -> answer.

(** What the program prints that the properties below speak of. *)
Inductive event :=
| Skipping (i : Z)        (* "Warning: Skipping failed chunk {i}" *)
| NoAudio                 (* "No audio files were generated successfully" *)
| Complete.               (* "CONVERSION COMPLETE!" *)

Record world := World {
  files : gmap string file;
  invocations : list (Z * str);    (* chunk number and text, oldest first *)
  printed : list event             (* oldest first *)
}.

(** [generate_audio_chunk]: one run of the engine; [True] when it exits
    with status zero, [False] on [CalledProcessError], which is the only
    exception caught. *)
Definition generate_audio_chunk (eng : engine) (text : str)
    (output_path : string) (chunk_num : Z) (w : world)
  : world * result bool :=
  let calls := invocations w ++ [(chunk_num, text)] in
  match eng (List.length (invocations w)) text with
  | Exit0 (Some f) =>
      (World (<[output_path := f]> (files w)) calls (printed w), Ok true)
  | Exit0 None => (World (files w) calls (printed w), Ok true)
  | ExitError => (World (files w) calls (printed w), Ok false)
  | Crash e => (World (files w) calls (printed w), Raise e)
  end.

(** The loop [for i, chunk in enumerate(chunks, 1)], from number [i] on. *)
Fixpoint synthesis_loop (eng : engine) (i : Z) (chunks : list str)
    (audio_files : list string) (w : world) : world * result (list string) :=
  match chunks with
  | [] => (w, Ok audio_files)
  | chunk :: rest =>
      let output_file := chunk_path i in
      let '(w, ok) := generate_audio_chunk eng chunk output_file i w in
      match ok with
      | Raise e => (w, Raise e)
      | Ok true =>
          synthesis_loop eng (i + 1) rest (audio_files ++ [output_file]) w
      | Ok false =>
          let w :=
            World (files w) (invocations w) (printed w ++ [Skipping i]) in
          synthesis_loop eng (i + 1) rest audio_files w
      end
  end.

(** [main], from the text that [extract_text_from_epub] returned. *)
Definition main (h : host) (eng : engine) (full_text : str) (w : world)
  : world * result unit :=
  let chunks := chunk_text full_text CHUNK_SIZE in
  let '(w, looped) := synthesis_loop eng 1 chunks [] w in
  match looped with
  | Raise e => (w, Raise e)
  | Ok ((_ :: _) as audio_files) =>
      let '(sigma, r) :=
        merge_wav_files h audio_files FINAL_OUTPUT PAUSE_BETWEEN_CHUNKS_MS
                        (files w) in
      let w := World sigma (invocations w) (printed w) in
      match r with
      | Raise e => (w, Raise e)
      | Ok _ =>
          (* the duration: [frames / float(rate)] *)
          match wave_open_rb sigma FINAL_OUTPUT with
          | Raise e => (w, Raise e)
          | Ok (p, _) =>
              if framerate p =? 0 then (w, Raise ZeroDivisionError)
              else (World sigma (invocations w) (printed w ++ [Complete]),
                    Ok tt)
          end
      end
  | Ok [] =>
      (World (files w) (invocations w) (printed w ++ [NoAudio]), Ok tt)
  end.


(** [enumerate(xs, start)]. *)
Fixpoint enumerate {A : Type} (xs : list A) (start : Z) : list (Z * A) :=
  match xs with
  | [] => []
  | x :: rest => (start, x) :: enumerate rest (start + 1)
  end.

(** How often the engine was run for chunk number [i]. *)
Definition attempts (w : world) (i : Z) : nat :=
  List.length (List.filter (fun c => fst c =? i) (invocations w)).

End Pipeline.

Import Chunker Wave Pipeline.

(* ===================================================================== *)
(** ** Concrete files and engines used in the examples *)
(* ===================================================================== *)

Module Scenario.

Definition pcm_22k : params := Params 1 2 22050.
Definition pcm_16k : params := Params 1 2 16000.
Definition pcm_8hz : params := Params 1 2 8.

(** Two frames of 16-bit mono each. *)
Definition frames_a : list byte := [x01; x00; x02; x00].
Definition frames_b : list byte := [x03; x00; x04; x00].

(** A host on which every file can be created. *)
Definition plain_host : host :=
  Host (fun _ => Granted) (fun _ _ => Truncated) (fun _ => None).

(** Two chunk files with the same parameters. *)
Definition disk_uniform : fs :=
  <[chunk_path 1 := WavFile pcm_22k frames_a]>
    (<[chunk_path 2 := WavFile pcm_22k frames_b]> ∅).

(** Two chunk files whose sample rates differ. *)
Definition disk_mismatch : fs :=
  <[chunk_path 1 := WavFile pcm_22k frames_a]>
    (<[chunk_path 2 := WavFile pcm_16k frames_b]> ∅).


(** An engine whose first run fails and whose later runs all succeed: a
    failure that a second attempt would have cured. *)
Definition fails_first : engine :=
  fun calls _ =>
    match calls with
    | O => ExitError
    | S _ => Exit0 (Some (WavFile pcm_8hz frames_a))
    end.

(** An engine whose second run fails, the others succeed. *)
Definition fails_second : engine :=
  fun calls _ =>
    match calls with
    | 0%nat => Exit0 (Some (WavFile pcm_8hz frames_a))
    | 1%nat => ExitError
    | _ => Exit0 (Some (WavFile pcm_8hz frames_b))
    end.

Definition empty_world : world := World ∅ [] [].

(** Three sentences of 2000 characters: no two of them fit in one chunk of
    [CHUNK_SIZE] characters. *)
Definition three_sentences : str :=
  repeat 97%N 2000 ++ lit ". " ++ repeat 98%N 2000 ++ lit ". "
  ++ repeat 99%N 2000.

End Scenario.

(* ===================================================================== *)
(** ** Vocabulary of the properties *)
(* ===================================================================== *)

(** A string with a first and a last character, neither of them white
    space. *)
Definition trimmed (s : str) : Prop :=
  (exists a, head s = Some a /\ isspace a = false)
  /\ (exists b, last s = Some b /\ isspace b = false).

(** A group of sentences respects the limit [n] when its joined text fits,
    or when it is one sentence that is too long by itself. *)
Definition within_limit (n : Z) (g : list str) : Prop :=
  len (join g) <= n \/ exists s, g = [s] /\ n < len s.

(** What the loop of [chunk_text] maintains: [groups] are the sentences of
    the chunks closed so far, each group joined into its chunk;
    [current_length] is the length of the open chunk plus one, or zero when
    nothing is open. *)
Definition loop_inv (chunk_size : Z) (st : loop_state)
    (groups : list (list str)) : Prop :=
  chunks st = List.map join groups
  /\ Forall (fun g => g <> []) groups
  /\ Forall (within_limit chunk_size) groups
  /\ current_length st
     = match current_chunk st with
       | [] => 0
       | _ => len (join (current_chunk st)) + 1
       end
  /\ (current_chunk st = [] \/ within_limit chunk_size (current_chunk st)).

(** The length of the first sentence of a group. *)
Definition first_len (g : list str) : Z :=
  match g with
  | s :: _ => len s
  | [] => 0
  end.

(** A list of groups is packed when no group could have taken the first
    sentence of the next one: joined to the group with a space, that
    sentence would pass the limit [n]. *)
Fixpoint packed (n : Z) (groups : list (list str)) : Prop :=
  match groups with
  | g :: (g' :: _) as later =>
      n < len (join g) + 1 + first_len g' /\ packed n later
  | _ => True
  end.

(** The text has a match of [[.!?]\s]: a terminator with white space right
    after it. *)
Fixpoint has_boundary (text : str) : bool :=
  match text with
  | c :: (d :: _) as rest =>
      (is_sentence_end c && isspace d) || has_boundary rest
  | _ => false
  end.

(** The groups closed so far together with the open one, if any. *)
Definition groups_so_far (groups : list (list str)) (st : loop_state)
  : list (list str) :=
  match current_chunk st with
  | [] => groups
  | cur => groups ++ [cur]
  end.

(** The answers of the engine to the runs the loop of [main] makes, the
    first of them being run number [calls]: the loop ends with the first
    run that raises. *)
Fixpoint engine_answers (eng : engine) (calls : nat) (chunks : list str)
  : list answer :=
  match chunks with
  | [] => []
  | chunk :: rest =>
      match eng calls chunk with
      | Crash e => [Crash e]
      | a => a :: engine_answers eng (S calls) rest
      end
  end.

(** The exception among some answers, if there is one. *)
Fixpoint crash_of (answers : list answer) : option exn :=
  match answers with
  | [] => None
  | Crash e :: _ => Some e
  | _ :: rest => crash_of rest
  end.

(** The segments among some answers, in order. *)
Fixpoint segments_of (answers : list answer) : list (params * list byte) :=
  match answers with
  | [] => []
  | Exit0 (Some (WavFile p data)) :: rest => (p, data) :: segments_of rest
  | _ :: rest => segments_of rest
  end.

(** The numbers of the runs that exited with another status than zero,
    the first answer having number [i]. *)
Fixpoint failed_numbers (answers : list answer) (i : Z) : list Z :=
  match answers with
  | [] => []
  | ExitError :: rest => i :: failed_numbers rest (i + 1)
  | _ :: rest => failed_numbers rest (i + 1)
  end.

(** The numbers of the runs that exited with status zero, the first
    answer having number [i]. *)
Fixpoint succeeded_numbers (answers : list answer) (i : Z) : list Z :=
  match answers with
  | [] => []
  | Exit0 _ :: rest => i :: succeeded_numbers rest (i + 1)
  | _ :: rest => succeeded_numbers rest (i + 1)
  end.

(** A run that did as expected: it exited with another status than zero,
    or it exited with status zero and left a wave file that can be read. *)
Definition answer_ok (a : answer) : Prop :=
  match a with
  | Exit0 (Some (WavFile p _)) => readable p = true
  | ExitError => True
  | _ => False
  end.

(** The bytes of the final track: the frames of the segments, with one
    block of silence between two neighbours. *)
Definition track_of (silence : list byte) (segs : list (params * list byte))
  : list byte :=
  sep_concat silence (List.map all_frames segs).

(* ===================================================================== *)
(** ** Facts about the string helpers *)
(* ===================================================================== *)

Section StringFacts.

Lemma len_app (a b : str) : len (a ++ b) = len a + len b.
Proof. unfold len. rewrite length_app. lia. Qed.

Lemma len_cons (c : N) (s : str) : len (c :: s) = 1 + len s.
Proof. unfold len. cbn [List.length]. lia. Qed.

Lemma len_nonneg (s : str) : 0 <= len s.
Proof. unfold len. lia. Qed.

Lemma lstrip_head (s : str) (c : N) (r : str) :
  lstrip s = c :: r -> isspace c = false.
Proof.
  induction s as [|x s IH]; cbn [lstrip]; [discriminate|].
  destruct (isspace x) eqn:Hx; [exact IH|].
  intros [= <- <-]. exact Hx.
Qed.

Lemma lstrip_snoc (s : str) (c : N) :
  isspace c = false -> lstrip (s ++ [c]) = lstrip s ++ [c].
Proof.
  intros Hc. induction s as [|x s IH]; cbn [lstrip app].
  - now rewrite Hc.
  - destruct (isspace x); [exact IH | reflexivity].
Qed.

Lemma rstrip_cons (c : N) (s : str) :
  isspace c = false -> rstrip (c :: s) = c :: rstrip s.
Proof.
  intros Hc. unfold rstrip. cbn [rev].
  rewrite (lstrip_snoc _ _ Hc), rev_app_distr. reflexivity.
Qed.

Lemma rstrip_last (s : str) (b : N) :
  last (rstrip s) = Some b -> isspace b = false.
Proof.
  unfold rstrip. destruct (lstrip (rev s)) as [|c r] eqn:E; [discriminate|].
  cbn [rev]. rewrite last_snoc. intros [= <-].
  exact (lstrip_head _ _ _ E).
Qed.

(** [strip] returns the empty string or a trimmed one. *)
Lemma strip_trimmed (s : str) : strip s = [] \/ trimmed (strip s).
Proof.
  unfold strip. destruct (lstrip s) as [|c r] eqn:E; [now left|].
  right. pose proof (lstrip_head _ _ _ E) as Hc.
  rewrite (rstrip_cons _ _ Hc). split.
  - exists c. now split.
  - destruct (last (c :: rstrip r)) as [b|] eqn:Hb.
    + exists b. split; [reflexivity|].
      apply (rstrip_last (c :: r)). now rewrite (rstrip_cons _ _ Hc).
    + now apply last_None in Hb.
Qed.

Lemma trimmed_nonempty (s : str) : trimmed s -> s <> [].
Proof. intros [[a [Ha _]] _] ->. discriminate. Qed.

Lemma trimmed_strip (s : str) : trimmed s -> strip s = s.
Proof.
  intros [[a [Ha Hsa]] [b [Hb Hsb]]].
  destruct s as [|x s]; [discriminate|]. injection Ha as ->.
  unfold strip. cbn [lstrip]. rewrite Hsa.
  destruct (rev (a :: s)) as [|y r] eqn:E.
  { apply (f_equal (@List.length N)) in E. rewrite length_rev in E.
    discriminate. }
  assert (a :: s = rev r ++ [y]) as Hs.
  { rewrite <- (rev_involutive (a :: s)), E. reflexivity. }
  rewrite Hs, last_snoc in Hb. injection Hb as ->.
  unfold rstrip. rewrite E. cbn [lstrip]. rewrite Hsb.
  rewrite <- E. apply rev_involutive.
Qed.

Lemma join_cons (p : str) (ps : list str) :
  ps <> [] -> join (p :: ps) = p ++ SPACE :: join ps.
Proof. destruct ps; [congruence | reflexivity]. Qed.

Lemma join_app (xs ys : list str) :
  xs <> [] -> ys <> [] -> join (xs ++ ys) = join xs ++ SPACE :: join ys.
Proof.
  intros Hx Hy. induction xs as [|x xs IH]; [congruence|].
  destruct xs as [|x' xs].
  - cbn [app]. now rewrite join_cons.
  - change ((x :: x' :: xs) ++ ys) with (x :: ((x' :: xs) ++ ys)).
    rewrite join_cons by discriminate.
    rewrite IH by discriminate.
    rewrite (join_cons x (x' :: xs)) by discriminate.
    now rewrite <- app_assoc.
Qed.

(** Joining joined groups is joining their sentences. *)
Lemma join_concat (groups : list (list str)) :
  Forall (fun g => g <> []) groups ->
  join (List.map join groups) = join (List.concat groups).
Proof.
  induction 1 as [|g gs Hg Hgs IH]; [reflexivity|].
  cbn [List.map List.concat].
  destruct gs as [|g' gs].
  - cbn. now rewrite app_nil_r.
  - rewrite join_cons by discriminate. rewrite IH.
    rewrite join_app; [reflexivity | exact Hg |].
    inversion Hgs as [|? ? Hg' _]; subst.
    destruct g'; [congruence | discriminate].
Qed.

Lemma join_trimmed (g : list str) :
  g <> [] -> Forall trimmed g -> trimmed (join g).
Proof.
  intros Hg Hall. induction Hall as [|s g Hs Hall IH]; [congruence|].
  destruct g as [|s' g]; [exact Hs|].
  rewrite join_cons by discriminate.
  destruct Hs as [[a [Ha Hsa]] _].
  destruct IH as [_ [b [Hb Hsb]]]; [discriminate|].
  split.
  - exists a. split; [|exact Hsa].
    destruct s; [discriminate|]. exact Ha.
  - exists b. split; [|exact Hsb].
    rewrite last_app, last_cons, Hb. reflexivity.
Qed.

End StringFacts.

(* ===================================================================== *)
(** ** The loop of [chunk_text] *)
(* ===================================================================== *)

Section ChunkLoop.

Variable chunk_size : Z.

Lemma loop_inv_init : loop_inv chunk_size loop_init [].
Proof.
  unfold loop_inv. cbn. split; [reflexivity|].
  split; [constructor|]. split; [constructor|]. split; [reflexivity | now left].
Qed.

Lemma loop_body_skip (st : loop_state) (sentence : str) :
  strip sentence = [] -> loop_body chunk_size st sentence = st.
Proof. unfold loop_body. now intros ->. Qed.

Lemma open_length_snoc (cur : list str) (sent : str) :
  match cur ++ [sent] with [] => 0 | _ => len (join (cur ++ [sent])) + 1 end
  = match cur with [] => 0 | _ => len (join cur) + 1 end + len sent + 1.
Proof.
  destruct cur as [|s0 cur]; [reflexivity|].
  rewrite join_app by discriminate.
  rewrite len_app, len_cons. cbn [app join]. lia.
Qed.

Lemma within_limit_single (sent : str) : within_limit chunk_size [sent].
Proof.
  destruct (Z_le_gt_dec (len sent) chunk_size) as [Hle|Hgt].
  - left. exact Hle.
  - right. exists sent. split; [reflexivity | lia].
Qed.

Lemma loop_body_keep (st : loop_state) (groups : list (list str))
    (sentence : str) :
  strip sentence <> [] ->
  loop_inv chunk_size st groups ->
  exists groups',
    loop_inv chunk_size (loop_body chunk_size st sentence) groups'
    /\ List.concat groups'
         ++ current_chunk (loop_body chunk_size st sentence)
       = (List.concat groups ++ current_chunk st) ++ [strip sentence].
Proof.
  intros Hne (Hch & Hnil & Hlim & Hlen & Hcur).
  unfold loop_body. destruct (strip sentence) as [|c s] eqn:Es; [congruence|].
  remember (c :: s) as sent eqn:Hsent. clear Hne Es Hsent c s.
  destruct st as [chs cur cl]; cbn [chunks current_chunk current_length] in *.
  pose proof (len_nonneg sent) as Hpos.
  destruct ((0 <? cl) && (chunk_size <? cl + len sent)) eqn:Hflush;
    cbn [chunks current_chunk current_length].
  - (* the open chunk is closed first *)
    apply andb_true_iff in Hflush as [Hcl Hover].
    apply Z.ltb_lt in Hcl, Hover.
    destruct cur as [|s0 cur]; [lia|].
    destruct Hcur as [Hcur|Hcur]; [discriminate|].
    exists (groups ++ [s0 :: cur]). split.
    + unfold loop_inv; cbn [chunks current_chunk current_length app].
      split; [rewrite List.map_app, Hch; reflexivity|].
      split; [apply Forall_app; split;
              [exact Hnil | constructor; [discriminate|constructor]]|].
      split; [apply Forall_app; split;
              [exact Hlim | constructor; [exact Hcur|constructor]]|].
      split; [cbn [join]; lia|].
      right. apply within_limit_single.
    + rewrite List.concat_app. cbn [List.concat app].
      rewrite app_nil_r. reflexivity.
  - (* the sentence joins the open chunk *)
    exists groups. split.
    + unfold loop_inv; cbn [chunks current_chunk current_length].
      split; [exact Hch|]. split; [exact Hnil|]. split; [exact Hlim|].
      split; [rewrite open_length_snoc, Hlen; reflexivity|].
      right. destruct cur as [|s0 cur]; [apply within_limit_single|].
      left. rewrite join_app by discriminate.
      change (join [sent]) with sent. rewrite len_app, len_cons.
      pose proof (len_nonneg (join (s0 :: cur))) as Hj.
      destruct (Z.ltb_spec 0 cl) as [_|Hf]; [|lia].
      destruct (Z.ltb_spec chunk_size (cl + len sent)) as [_|Hf];
        [discriminate | lia].
    + now rewrite app_assoc.
Qed.

Lemma loop_fold (pieces : list str) :
  forall st groups,
    loop_inv chunk_size st groups ->
    exists groups',
      loop_inv chunk_size (fold_left (loop_body chunk_size) pieces st) groups'
      /\ List.concat groups'
           ++ current_chunk (fold_left (loop_body chunk_size) pieces st)
         = (List.concat groups ++ current_chunk st) ++ kept pieces.
Proof.
  induction pieces as [|piece pieces IH]; intros st groups Hinv.
  - exists groups. split; [exact Hinv|]. cbn. now rewrite app_nil_r.
  - cbn [fold_left]. unfold kept. cbn [List.map List.filter].
    destruct (strip piece) as [|c s] eqn:Es.
    + rewrite (loop_body_skip _ _ Es). cbn. apply IH. exact Hinv.
    + destruct (loop_body_keep st groups piece) as (g1 & Hinv1 & Hcat1);
        [congruence | exact Hinv |].
      destruct (IH _ _ Hinv1) as (g2 & Hinv2 & Hcat2).
      exists g2. split; [exact Hinv2|].
      rewrite Hcat2, Hcat1, Es. cbn. now rewrite <- app_assoc.
Qed.

(** The chunks are the joined groups of a partition of the kept sentences
    into non-empty groups that respect the limit. *)
Lemma chunk_text_groups (text : str) :
  exists groups,
    chunk_text text chunk_size = List.map join groups
    /\ List.concat groups = kept_sentences text
    /\ Forall (fun g => g <> []) groups
    /\ Forall (within_limit chunk_size) groups.
Proof.
  unfold chunk_text.
  destruct (loop_fold (re_split text) loop_init [] loop_inv_init)
    as (groups & (Hch & Hnil & Hlim & _ & Hcur) & Hcat).
  cbn [List.concat app current_chunk loop_init] in Hcat.
  unfold loop_finish.
  destruct (current_chunk (fold_left _ _ _)) as [|s0 cur] eqn:E.
  - exists groups. rewrite app_nil_r in Hcat. now repeat split.
  - destruct Hcur as [Hcur|Hcur]; [discriminate|].
    exists (groups ++ [s0 :: cur]). repeat split.
    + rewrite List.map_app, Hch. reflexivity.
    + rewrite List.concat_app. cbn [List.concat]. now rewrite app_nil_r.
    + apply Forall_app. split; [exact Hnil|]. constructor; [discriminate|constructor].
    + apply Forall_app. split; [exact Hlim|]. constructor; [exact Hcur|constructor].
Qed.

End ChunkLoop.

Lemma kept_sentences_trimmed (text : str) :
  Forall trimmed (kept_sentences text).
Proof.
  unfold kept_sentences, kept. apply List.Forall_forall. intros s Hs.
  apply List.filter_In in Hs as [Hin Hne].
  apply List.in_map_iff in Hin as (piece & <- & _).
  destruct (strip_trimmed piece) as [E|Ht]; [|exact Ht].
  rewrite E in Hne. discriminate.
Qed.

Lemma space_not_sentence_end (c : N) :
  isspace c = true -> is_sentence_end c = false.
Proof.
  intros Hc. destruct (is_sentence_end c) eqn:E; [|reflexivity].
  unfold is_sentence_end in E.
  repeat (apply orb_true_iff in E as [E|E]);
    apply N.eqb_eq in E; subst c; discriminate.
Qed.

Lemma re_split_from_spaces (text : str) :
  forallb isspace text = true ->
  forall piece, re_split_from false piece text = [rev piece ++ text].
Proof.
  induction text as [|c rest IH]; intros Hall piece; cbn [re_split_from].
  - now rewrite app_nil_r.
  - cbn [forallb] in Hall. apply andb_true_iff in Hall as [Hc Hrest].
    rewrite (space_not_sentence_end _ Hc). cbn [andb].
    rewrite (IH Hrest). cbn [rev]. now rewrite <- app_assoc.
Qed.

Lemma lstrip_spaces (text : str) :
  forallb isspace text = true -> lstrip text = [].
Proof.
  induction text as [|c rest IH]; [reflexivity|].
  cbn [forallb lstrip]. intros Hall.
  apply andb_true_iff in Hall as [-> Hrest]. exact (IH Hrest).
Qed.

(* ===================================================================== *)
(** ** The chunker: properties of [chunk_text] *)
(* ===================================================================== *)

(** C1 fails on the code.  [re.split] gives the pieces between the matches
    of [[.!?]\s+] and drops the matched text, so the terminator of every
    sentence but the last is lost: the only chunk of ["Hi. Yo"] is
    ["Hi Yo"], which differs from the text by more than white space at its
    ends.  The last sentence keeps its terminator: the only chunk of
    ["Hi. Yo."] is ["Hi Yo."]. *)
Lemma rejoin_loses_terminator :
  chunk_text (lit "Hi. Yo") 500 = [lit "Hi Yo"]
  /\ strip (join (chunk_text (lit "Hi. Yo") 500)) <> strip (lit "Hi. Yo")
  /\ chunk_text (lit "Hi. Yo.") 500 = [lit "Hi Yo."].
Proof.
  split; [reflexivity|]. split; [vm_compute; discriminate | reflexivity].
Qed.

(** What the chunks do give back: for every text and every chunk size, the
    chunks joined by single spaces are the kept sentences joined by single
    spaces, where the kept sentences are the non-empty stripped pieces of
    the text between the matches of [[.!?]\s+]; the chunks partition these
    sentences in order. *)
Lemma rejoin_gives_kept_sentences (text : str) (chunk_size : Z) :
  join (chunk_text text chunk_size) = join (kept_sentences text)
  /\ exists groups,
       chunk_text text chunk_size = List.map join groups
       /\ List.concat groups = kept_sentences text
       /\ Forall (fun g => g <> []) groups.
Proof.
  destruct (chunk_text_groups chunk_size text)
    as (groups & Hch & Hcat & Hnil & _).
  split.
  - rewrite Hch, <- Hcat. now apply join_concat.
  - exists groups. now repeat split.
Qed.

Lemma len_le_join (g : list str) (s : str) : In s g -> len s <= len (join g).
Proof.
  induction g as [|x g IH]; [intros []|].
  intros Hin. destruct g as [|y g].
  - destruct Hin as [->|[]]. cbn [join]. lia.
  - rewrite join_cons by discriminate. rewrite len_app, len_cons.
    pose proof (len_nonneg x). pose proof (len_nonneg (join (y :: g))).
    destruct Hin as [->|Hin]; [lia|]. specialize (IH Hin). lia.
Qed.

(** C6: for every text and every chunk size (positive or not), a chunk is
    no longer than the chunk size, unless it is exactly one kept sentence
    that is longer than the chunk size by itself; and every kept sentence
    that is longer than the chunk size is emitted, whole, as a chunk of its
    own: it is neither dropped nor cut. *)
Theorem chunk_length_bound (text : str) (chunk_size : Z) :
  (forall c, In c (chunk_text text chunk_size) ->
             len c <= chunk_size
             \/ (In c (kept_sentences text) /\ chunk_size < len c))
  /\ (forall s, In s (kept_sentences text) -> chunk_size < len s ->
                In s (chunk_text text chunk_size)).
Proof.
  destruct (chunk_text_groups chunk_size text)
    as (groups & Hch & Hcat & _ & Hlim).
  rewrite Hch. rewrite List.Forall_forall in Hlim. split.
  - intros c Hin.
    apply List.in_map_iff in Hin as (g & <- & Hg).
    destruct (Hlim g Hg) as [Hle | (s & -> & Hlong)]; [now left|].
    right. split; [|exact Hlong].
    rewrite <- Hcat. apply List.in_concat. exists [s].
    split; [exact Hg | now left].
  - intros s Hs Hlong. rewrite <- Hcat in Hs.
    apply List.in_concat in Hs as (g & Hg & Hsg).
    apply List.in_map_iff. exists g. split; [|exact Hg].
    destruct (Hlim g Hg) as [Hle | (s' & -> & _)].
    + pose proof (len_le_join g s Hsg). lia.
    + destruct Hsg as [->|[]]. reflexivity.
Qed.

Lemma chunk_length_bound_witness :
  (len (lit "Hi Yo") <= 5
   \/ (In (lit "Hi Yo") (kept_sentences (lit "Hi. Yo!  Ok?xyz. "))
       /\ 5 < len (lit "Hi Yo")))
  /\ In (lit "Ok?xyz") (chunk_text (lit "Hi. Yo!  Ok?xyz. ") 5).
Proof.
  destruct (chunk_length_bound (lit "Hi. Yo!  Ok?xyz. ") 5) as [Hbound Hlong].
  split.
  - apply Hbound. vm_compute. left. reflexivity.
  - apply Hlong.
    + vm_compute. right. right. left. reflexivity.
    + vm_compute. reflexivity.
Defined.

(** C8: an empty text, or one of white space only, gives no chunk. *)
Theorem blank_text_no_chunks (text : str) (chunk_size : Z) :
  forallb isspace text = true -> chunk_text text chunk_size = [].
Proof.
  intros Hall. unfold chunk_text, re_split.
  rewrite (re_split_from_spaces text Hall). cbn [rev app fold_left].
  unfold loop_body, strip. rewrite (lstrip_spaces text Hall). reflexivity.
Qed.

Lemma blank_text_no_chunks_witness :
  chunk_text (lit "   ") 2500 = [] /\ chunk_text [] 2500 = [].
Proof.
  split.
  - apply (blank_text_no_chunks (lit "   ") 2500). reflexivity.
  - apply (blank_text_no_chunks [] 2500). reflexivity.
Defined.

(** C10: every chunk is non-empty and has no white space at either end:
    it is the join of a non-empty group of kept sentences, each of which
    is itself non-empty with no white space at either end. *)
Theorem chunks_trimmed (text : str) (chunk_size : Z) (c : str) :
  In c (chunk_text text chunk_size) ->
  c <> []
  /\ (exists a, head c = Some a /\ isspace a = false)
  /\ (exists b, last c = Some b /\ isspace b = false)
  /\ strip c = c
  /\ exists g, c = join g /\ g <> [] /\ Forall trimmed g
               /\ forall s, In s g -> In s (kept_sentences text).
Proof.
  destruct (chunk_text_groups chunk_size text)
    as (groups & Hch & Hcat & Hnil & _).
  rewrite Hch. intros Hin.
  apply List.in_map_iff in Hin as (g & <- & Hg).
  rewrite List.Forall_forall in Hnil.
  assert (forall s, In s g -> In s (kept_sentences text)) as Hsub.
  { intros s Hs. rewrite <- Hcat. apply List.in_concat. now exists g. }
  assert (Forall trimmed g) as Hall.
  { apply List.Forall_forall. intros s Hs.
    pose proof (kept_sentences_trimmed text) as Hk.
    rewrite List.Forall_forall in Hk. apply Hk, Hsub, Hs. }
  pose proof (join_trimmed g (Hnil g Hg) Hall) as Ht.
  split; [now apply trimmed_nonempty|].
  split; [exact (proj1 Ht)|]. split; [exact (proj2 Ht)|].
  split; [now apply trimmed_strip|].
  exists g. repeat split; auto.
Qed.

Lemma chunks_trimmed_witness :
  lit "Ok?x" <> []
  /\ (exists a, head (lit "Ok?x") = Some a /\ isspace a = false)
  /\ (exists b, last (lit "Ok?x") = Some b /\ isspace b = false)
  /\ strip (lit "Ok?x") = lit "Ok?x"
  /\ exists g, lit "Ok?x" = join g /\ g <> [] /\ Forall trimmed g
               /\ forall s, In s g
                            -> In s (kept_sentences (lit "Hi. Yo!  Ok?x. ")).
Proof.
  apply (chunks_trimmed (lit "Hi. Yo!  Ok?x. ") 5).
  vm_compute. right. left. reflexivity.
Defined.

(* ===================================================================== *)
(** ** Further properties of [chunk_text] *)
(* ===================================================================== *)

Section ChunkerMore.

Variable chunk_size : Z.

Lemma len_join_app_le (xs ys : list str) :
  len (join xs) <= len (join (xs ++ ys)).
Proof.
  destruct xs as [|x xs]; [apply len_nonneg|].
  destruct ys as [|y ys]; [rewrite app_nil_r; lia|].
  rewrite join_app by discriminate.
  rewrite len_app, len_cons.
  pose proof (len_nonneg (join (y :: ys))). lia.
Qed.

(** While everything fits, the loop closes no chunk. *)
Lemma loop_fold_fits (pieces : list str) :
  forall cur,
    len (join (cur ++ kept pieces)) <= chunk_size ->
    fold_left (loop_body chunk_size) pieces
      (LoopState [] cur
         match cur with [] => 0 | _ => len (join cur) + 1 end)
    = LoopState [] (cur ++ kept pieces)
        match cur ++ kept pieces with
        | [] => 0
        | _ => len (join (cur ++ kept pieces)) + 1
        end.
Proof.
  induction pieces as [|piece pieces IH]; intros cur Hfit.
  - cbn [kept List.map List.filter fold_left]. now rewrite app_nil_r.
  - cbn [fold_left]. unfold kept in *. cbn [List.map List.filter] in *.
    destruct (strip piece) as [|c s] eqn:Es.
    + rewrite (loop_body_skip _ _ _ Es). cbn [List.length Nat.eqb negb] in *.
      now apply IH.
    + cbn [List.length Nat.eqb negb] in *.
      unfold loop_body. rewrite Es.
      cbn [chunks current_chunk current_length].
      replace (c :: s) with (strip piece) in * by exact Es.
      assert (cur ++ strip piece :: List.filter
                (fun s0 => negb (Nat.eqb (List.length s0) 0))
                (List.map strip pieces)
              = (cur ++ [strip piece]) ++ List.filter
                (fun s0 => negb (Nat.eqb (List.length s0) 0))
                (List.map strip pieces)) as Hassoc
        by now rewrite <- app_assoc.
      rewrite Hassoc in *.
      assert (((0 <? match cur with [] => 0 | _ => len (join cur) + 1 end)
               && (chunk_size
                   <? match cur with [] => 0 | _ => len (join cur) + 1 end
                      + len (strip piece))) = false) as ->.
      { destruct cur as [|s0 cur]; [reflexivity|].
        apply andb_false_iff. right. apply Z.ltb_ge.
        pose proof (len_join_app_le ((s0 :: cur) ++ [strip piece])
                      (List.filter
                         (fun s1 => negb (Nat.eqb (List.length s1) 0))
                         (List.map strip pieces))) as Hle.
        rewrite join_app in Hle by discriminate.
        change (join [strip piece]) with (strip piece) in Hle.
        rewrite len_app, len_cons in Hle. lia. }
      cbn [chunks current_chunk current_length].
      rewrite <- open_length_snoc. now apply IH.
Qed.

End ChunkerMore.

(** When all the kept sentences, joined by single spaces, fit in the chunk
    size, there is exactly one chunk: all of them, joined. *)
Theorem all_fits_one_chunk (text : str) (chunk_size : Z) :
  kept_sentences text <> [] ->
  len (join (kept_sentences text)) <= chunk_size ->
  chunk_text text chunk_size = [join (kept_sentences text)].
Proof.
  intros Hne Hfit. unfold chunk_text.
  pose proof (loop_fold_fits chunk_size (re_split text) []) as Hfold.
  cbn [app] in Hfold. unfold loop_init.
  rewrite Hfold by exact Hfit.
  unfold loop_finish. cbn [current_chunk chunks app].
  fold (kept_sentences text).
  destruct (kept_sentences text); [congruence | reflexivity].
Qed.

Lemma all_fits_one_chunk_witness :
  chunk_text (lit "One. Two!  Three?") 20 = [lit "One Two Three?"].
Proof.
  apply (all_fits_one_chunk (lit "One. Two!  Three?") 20).
  - vm_compute. discriminate.
  - vm_compute. discriminate.
Defined.

Section Packing.

Variable chunk_size : Z.

Lemma packed_cons (g g' : list str) (later : list (list str)) :
  packed chunk_size (g :: g' :: later)
  <-> chunk_size < len (join g) + 1 + first_len g'
      /\ packed chunk_size (g' :: later).
Proof. reflexivity. Qed.

Lemma packed_snoc (groups : list (list str)) (g h : list str) :
  packed chunk_size (groups ++ [g]) ->
  chunk_size < len (join g) + 1 + first_len h ->
  packed chunk_size (groups ++ [g; h]).
Proof.
  intros Hp Hh. induction groups as [|a groups IH].
  - cbn [app]. apply packed_cons. split; [exact Hh | exact I].
  - destruct groups as [|b groups].
    + cbn [app] in *. apply packed_cons in Hp as [Hab _].
      apply packed_cons. split; [exact Hab|].
      apply packed_cons. split; [exact Hh | exact I].
    + cbn [app] in *. apply packed_cons in Hp as [Hab Hp].
      apply packed_cons. split; [exact Hab | exact (IH Hp)].
Qed.

Lemma packed_grow_last (groups : list (list str)) (g : list str) (s : str) :
  g <> [] ->
  packed chunk_size (groups ++ [g]) ->
  packed chunk_size (groups ++ [g ++ [s]]).
Proof.
  intros Hg Hp. induction groups as [|a groups IH]; [exact I|].
  destruct groups as [|b groups].
  - cbn [app] in *. apply packed_cons in Hp as [Hab _].
    apply packed_cons. split; [|exact I].
    destruct g; [congruence | exact Hab].
  - cbn [app] in *. apply packed_cons in Hp as [Hab Hp].
    apply packed_cons. split; [exact Hab | exact (IH Hp)].
Qed.

(** The invariant of the loop that speaks of packing. *)
Lemma loop_body_packed (st : loop_state) (groups : list (list str))
    (sentence : str) :
  strip sentence <> [] ->
  chunks st = List.map join groups ->
  current_length st
  = match current_chunk st with
    | [] => 0
    | _ => len (join (current_chunk st)) + 1
    end ->
  (current_chunk st = [] -> groups = []) ->
  Forall (fun g => g <> []) groups ->
  packed chunk_size (groups_so_far groups st) ->
  let st' := loop_body chunk_size st sentence in
  exists groups',
    chunks st' = List.map join groups'
    /\ Forall (fun g => g <> []) groups'
    /\ current_length st'
       = match current_chunk st' with
         | [] => 0
         | _ => len (join (current_chunk st')) + 1
         end
    /\ current_chunk st' <> []
    /\ packed chunk_size (groups_so_far groups' st')
    /\ groups_so_far groups' st' <> []
    /\ List.concat (groups_so_far groups' st')
       = List.concat (groups_so_far groups st) ++ [strip sentence].
Proof.
  intros Hne Hch Hlen Hnil Hall Hp. cbv zeta.
  unfold loop_body. destruct (strip sentence) as [|c s] eqn:Es; [congruence|].
  remember (c :: s) as sent eqn:Hsent. clear Hne Es.
  destruct st as [chs cur cl];
    unfold groups_so_far in *;
    cbn [chunks current_chunk current_length] in *.
  destruct ((0 <? cl) && (chunk_size <? cl + len sent)) eqn:Hflush;
    cbn [chunks current_chunk current_length app].
  - apply andb_true_iff in Hflush as [Hcl Hover].
    apply Z.ltb_lt in Hcl, Hover.
    destruct cur as [|s0 cur]; [lia|].
    exists (groups ++ [s0 :: cur]).
    split; [rewrite List.map_app, Hch; reflexivity|].
    split; [apply Forall_app; split;
            [exact Hall | constructor; [discriminate | constructor]]|].
    split; [reflexivity|]. split; [discriminate|].
    split.
    { rewrite <- app_assoc. cbn [app]. apply packed_snoc; [exact Hp|].
      cbn [first_len]. lia. }
    split; [now destruct groups|].
    rewrite !List.concat_app. cbn [List.concat]. now rewrite !app_nil_r.
  - exists groups. split; [exact Hch|]. split; [exact Hall|].
    split; [rewrite open_length_snoc, Hlen; reflexivity|].
    split; [now destruct cur|].
    destruct cur as [|s0 cur].
    + rewrite (Hnil eq_refl). cbn [app List.concat].
      split; [exact I|]. split; [discriminate | reflexivity].
    + cbn [app].
      change (s0 :: (cur ++ [sent])) with ((s0 :: cur) ++ [sent]).
      split; [apply packed_grow_last; [discriminate | exact Hp]|].
      split; [now destruct groups|].
      rewrite !List.concat_app. cbn [List.concat].
      now rewrite !app_nil_r, <- !app_assoc.
Qed.

Lemma loop_fold_packed (pieces : list str) :
  forall st groups,
    chunks st = List.map join groups ->
    current_length st
    = match current_chunk st with
      | [] => 0
      | _ => len (join (current_chunk st)) + 1
      end ->
    (current_chunk st = [] -> groups = []) ->
    Forall (fun g => g <> []) groups ->
    packed chunk_size (groups_so_far groups st) ->
    let st' := fold_left (loop_body chunk_size) pieces st in
    exists groups',
      chunks st' = List.map join groups'
      /\ Forall (fun g => g <> []) groups'
      /\ packed chunk_size (groups_so_far groups' st')
      /\ List.concat (groups_so_far groups' st')
         = List.concat (groups_so_far groups st) ++ kept pieces.
Proof.
  induction pieces as [|piece pieces IH];
    intros st groups Hch Hlen Hnil Hall Hp.
  - exists groups. cbn. now rewrite app_nil_r.
  - cbn [fold_left]. unfold kept. cbn [List.map List.filter].
    destruct (strip piece) as [|c s] eqn:Es.
    + rewrite (loop_body_skip _ _ _ Es). cbn [List.length Nat.eqb negb].
      now apply IH.
    + cbn [List.length Nat.eqb negb].
      destruct (loop_body_packed st groups piece)
        as (g1 & Hch1 & Hall1 & Hlen1 & Hcur1 & Hp1 & _ & Hcat1);
        try assumption; [congruence|].
      destruct (IH _ g1 Hch1 Hlen1) as (g2 & Hch2 & Hall2 & Hp2 & Hcat2);
        [congruence | exact Hall1 | exact Hp1 |].
      exists g2. split; [exact Hch2|]. split; [exact Hall2|].
      split; [exact Hp2|].
      cbv zeta in Hcat2. rewrite Hcat2, Hcat1, Es, <- app_assoc.
      reflexivity.
Qed.

End Packing.

(** Chunks are closed only when they have to be: the chunks are the joined
    groups of a partition of the kept sentences, in order, in which no group
    could have taken the first sentence of the next group without passing
    the chunk size. *)
Theorem chunks_are_packed (text : str) (chunk_size : Z) :
  exists groups,
    chunk_text text chunk_size = List.map join groups
    /\ List.concat groups = kept_sentences text
    /\ Forall (fun g => g <> []) groups
    /\ packed chunk_size groups.
Proof.
  unfold chunk_text.
  destruct (loop_fold_packed chunk_size (re_split text) loop_init [])
    as (groups & Hch & Hall & Hp & Hcat);
    try reflexivity; try exact I; try constructor.
  cbv zeta in *. unfold groups_so_far, loop_finish in *.
  cbn [List.concat current_chunk loop_init app] in Hcat.
  destruct (current_chunk (fold_left _ _ _)) as [|s0 cur].
  - exists groups. now repeat split.
  - exists (groups ++ [s0 :: cur]).
    split; [rewrite List.map_app, Hch; reflexivity|].
    split; [exact Hcat|]. split; [|exact Hp].
    apply Forall_app. split; [exact Hall|].
    constructor; [discriminate | constructor].
Qed.

Lemma length_concat_nonempty {A : Type} (groups : list (list A)) :
  Forall (fun g => g <> []) groups ->
  (List.length groups <= List.length (List.concat groups))%nat.
Proof.
  induction 1 as [|g groups Hg _ IH]; [reflexivity|].
  cbn [List.concat List.length]. rewrite length_app.
  destruct g; [congruence|]. cbn [List.length]. lia.
Qed.

(** There are at most as many chunks as kept sentences, and there is no
    chunk exactly when there is no kept sentence. *)
Theorem chunk_count (text : str) (chunk_size : Z) :
  (List.length (chunk_text text chunk_size)
   <= List.length (kept_sentences text))%nat
  /\ (chunk_text text chunk_size = [] <-> kept_sentences text = []).
Proof.
  destruct (chunk_text_groups chunk_size text)
    as (groups & Hch & Hcat & Hnil & _).
  rewrite Hch, <- Hcat, length_map. split.
  - now apply length_concat_nonempty.
  - split.
    + intros H. destruct groups; [reflexivity | discriminate].
    + intros H. destruct groups as [|g groups]; [reflexivity|].
      inversion Hnil as [|? ? Hg _]; subst.
      destruct g; [congruence | discriminate].
Qed.

Lemma trimmed_len_pos (s : str) : trimmed s -> 1 <= len s.
Proof.
  intros Ht. apply trimmed_nonempty in Ht.
  destruct s; [congruence|]. rewrite len_cons.
  pose proof (len_nonneg s). lia.
Qed.

Lemma map_join_singletons (groups : list (list str)) :
  Forall (fun g => exists s, g = [s]) groups ->
  List.map join groups = List.concat groups.
Proof.
  induction 1 as [|g groups [s ->] _ IH]; [reflexivity|].
  cbn [List.map List.concat join app]. now rewrite IH.
Qed.

(** A chunk size below 3 cannot hold two sentences and the space between
    them: every kept sentence is then a chunk of its own. *)
Theorem tiny_chunk_size_one_sentence_each (text : str) (chunk_size : Z) :
  chunk_size < 3 ->
  chunk_text text chunk_size = kept_sentences text.
Proof.
  intros Hsmall.
  destruct (chunk_text_groups chunk_size text)
    as (groups & Hch & Hcat & Hnil & Hlim).
  rewrite Hch, <- Hcat. apply map_join_singletons.
  pose proof (kept_sentences_trimmed text) as Hk. rewrite <- Hcat in Hk.
  rewrite List.Forall_forall in *.
  intros g Hg.
  assert (forall s, In s g -> 1 <= len s) as Hpos.
  { intros s Hs. apply trimmed_len_pos, Hk, List.in_concat.
    now exists g. }
  destruct (Hlim g Hg) as [Hle | (s & -> & _)]; [|now exists s].
  destruct g as [|a [|b rest]].
  - now destruct (Hnil [] Hg).
  - now exists a.
  - exfalso. rewrite join_cons in Hle by discriminate.
    rewrite len_app, len_cons in Hle.
    pose proof (len_join_app_le [b] rest) as Hb.
    change ([b] ++ rest) with (b :: rest) in Hb.
    change (join [b]) with b in Hb.
    pose proof (Hpos a (or_introl eq_refl)).
    pose proof (Hpos b (or_intror (or_introl eq_refl))).
    lia.
Qed.

Lemma tiny_chunk_size_one_sentence_each_witness :
  chunk_text (lit "a. b. c") 2 = kept_sentences (lit "a. b. c").
Proof.
  apply (tiny_chunk_size_one_sentence_each (lit "a. b. c") 2). lia.
Defined.

Lemma re_split_from_no_boundary (text : str) :
  has_boundary text = false ->
  forall piece, re_split_from false piece text = [rev piece ++ text].
Proof.
  induction text as [|c rest IH]; intros Hnb piece; cbn [re_split_from].
  - now rewrite app_nil_r.
  - assert (is_sentence_end c
            && match rest with d :: _ => isspace d | [] => false end = false
            /\ has_boundary rest = false) as [-> Hrest].
    { destruct rest as [|d rest]; [now rewrite andb_false_r|].
      cbn [has_boundary] in Hnb. now apply orb_false_iff in Hnb. }
    cbn [andb]. rewrite (IH Hrest). cbn [rev]. now rewrite <- app_assoc.
Qed.

(** A text with no terminator followed by white space is never split,
    whatever the chunk size: its only chunk is the stripped text, and there
    is no chunk if that is empty. *)
Theorem no_boundary_single_chunk (text : str) (chunk_size : Z) :
  has_boundary text = false ->
  chunk_text text chunk_size
  = match strip text with
    | [] => []
    | _ => [strip text]
    end.
Proof.
  intros Hnb. unfold chunk_text, re_split.
  rewrite (re_split_from_no_boundary text Hnb). cbn [rev app fold_left].
  unfold loop_body. destruct (strip text) as [|c s]; reflexivity.
Qed.

Lemma no_boundary_single_chunk_witness :
  chunk_text (lit "  no.stop?here  ") 3 = [lit "no.stop?here"].
Proof.
  apply (no_boundary_single_chunk (lit "  no.stop?here  ") 3). reflexivity.
Defined.

(* ===================================================================== *)
(** ** The names of the chunk files *)
(* ===================================================================== *)

Section ChunkPaths.

Lemma append_nil_l (s : string) : String.append EmptyString s = s.
Proof. reflexivity. Qed.

Lemma append_cons (c : ascii) (a b : string) :
  String.append (String c a) b = String c (String.append a b).
Proof. reflexivity. Qed.

Lemma uint_of_padded (k : nat) (d : Decimal.uint) :
  option_map N.of_uint
    (NilEmpty.uint_of_string
       (String.append (string_of_list_ascii (repeat "0"%char k))
                      (NilEmpty.string_of_uint d)))
  = Some (N.of_uint d).
Proof.
  induction k as [|k IH].
  - cbn [repeat string_of_list_ascii]. rewrite append_nil_l.
    now rewrite NilEmpty.usu.
  - cbn [repeat string_of_list_ascii]. rewrite append_cons.
    cbn [NilEmpty.uint_of_string].
    destruct (NilEmpty.uint_of_string _) as [d'|]; [|discriminate].
    cbn in *. exact IH.
Qed.

(** The digits of [format_04d] read back as the number. *)
Lemma format_04d_read (i : Z) :
  0 <= i ->
  option_map N.of_uint (NilEmpty.uint_of_string (format_04d i))
  = Some (Z.to_N i).
Proof.
  intros _. unfold format_04d.
  rewrite uint_of_padded. now rewrite DecimalN.Unsigned.of_to.
Qed.

Lemma list_ascii_of_append (a b : string) :
  list_ascii_of_string (String.append a b)
  = list_ascii_of_string a ++ list_ascii_of_string b.
Proof.
  induction a as [|c a IH]; [reflexivity|].
  rewrite append_cons. cbn [list_ascii_of_string app]. now rewrite IH.
Qed.

Lemma append_inv_tail (a b s : string) :
  String.append a s = String.append b s -> a = b.
Proof.
  intros H. apply (f_equal list_ascii_of_string) in H.
  rewrite !list_ascii_of_append in H. apply app_inv_tail in H.
  apply (f_equal string_of_list_ascii) in H.
  now rewrite !string_of_list_ascii_of_string in H.
Qed.

Lemma chunk_path_inj (i j : Z) :
  0 <= i -> 0 <= j -> chunk_path i = chunk_path j -> i = j.
Proof.
  intros Hi Hj H. unfold chunk_path, OUTPUT_DIR in H.
  repeat rewrite append_cons in H. rewrite !append_nil_l in H.
  injection H as H. apply append_inv_tail in H.
  pose proof (format_04d_read i Hi) as Ri.
  pose proof (format_04d_read j Hj) as Rj.
  rewrite H, Rj in Ri. injection Ri as Ri. lia.
Qed.

Lemma chunk_path_not_final (i : Z) : chunk_path i <> FINAL_OUTPUT.
Proof.
  unfold chunk_path, OUTPUT_DIR, FINAL_OUTPUT.
  repeat rewrite append_cons. discriminate.
Qed.

End ChunkPaths.

(** Two chunk numbers never share a file, and no chunk file is the final
    output file: the file name gives the number back. *)
Theorem chunk_paths_distinct (i j : Z) :
  0 <= i -> 0 <= j ->
  (chunk_path i = chunk_path j <-> i = j)
  /\ chunk_path i <> FINAL_OUTPUT.
Proof.
  intros Hi Hj. split; [|apply chunk_path_not_final].
  split; [now apply chunk_path_inj | now intros ->].
Qed.

Lemma chunk_paths_distinct_witness :
  (chunk_path 7 = chunk_path 12345 <-> 7 = 12345)
  /\ chunk_path 7 <> FINAL_OUTPUT.
Proof. apply (chunk_paths_distinct 7 12345); lia. Defined.


(* ===================================================================== *)
(** ** The merge: [add_silence] and [merge_wav_files] *)
(* ===================================================================== *)

Section MergeFacts.

Variable h : host.

Lemma writable_readable (p : params) : writable p = true -> readable p = true.
Proof.
  unfold writable, readable. intros H.
  repeat (apply andb_true_iff in H as [H ?]).
  now apply andb_true_iff.
Qed.

Lemma writable_framerate (p : params) : writable p = true -> 1 <= framerate p.
Proof.
  unfold writable. intros H. apply andb_true_iff in H as [_ H].
  now apply Z.leb_le in H.
Qed.

Lemma wave_open_rb_holds (sigma : fs) (path : string)
    (seg : params * list byte) :
  holds sigma path seg -> wave_open_rb sigma path = Ok seg.
Proof.
  intros [Hfile Hread]. unfold wave_open_rb, decode. rewrite Hfile, Hread.
  now destruct seg.
Qed.

(** Opening a file depends on that file only. *)
Lemma wave_open_rb_agree (sigma sigma' : fs) (path : string) :
  sigma !! path = sigma' !! path ->
  wave_open_rb sigma path = wave_open_rb sigma' path.
Proof. unfold wave_open_rb. now intros ->. Qed.

(** Away from the output path the loop reads the file system. *)
Lemma open_input_other (sigma : fs) (output_path : string) (p : params)
    (wr : writer) (wav_file : string) :
  wav_file <> output_path ->
  open_input h sigma output_path p wr wav_file = wave_open_rb sigma wav_file.
Proof.
  intros Hne. unfold open_input.
  now rewrite (proj2 (String.eqb_neq _ _) Hne).
Qed.

Lemma open_input_agree (sigma sigma' : fs) (output_path : string)
    (p : params) (wr : writer) (wav_file : string) :
  (wav_file <> output_path -> sigma !! wav_file = sigma' !! wav_file) ->
  open_input h sigma output_path p wr wav_file
  = open_input h sigma' output_path p wr wav_file.
Proof.
  intros Hagree. unfold open_input.
  destruct (String.eqb_spec wav_file output_path) as [_|Hne]; [reflexivity|].
  apply wave_open_rb_agree. now apply Hagree.
Qed.

(** The loop depends on the files it opens only. *)
Lemma merge_loop_agree (sigma sigma' : fs) (output_path : string)
    (p : params) (pause total : Z) (wav_files : list string) :
  (forall f, In f wav_files -> f <> output_path ->
             sigma !! f = sigma' !! f) ->
  forall i wr,
    merge_loop h sigma output_path p pause total i wav_files wr
    = merge_loop h sigma' output_path p pause total i wav_files wr.
Proof.
  induction wav_files as [|f rest IH]; intros Hagree i wr; [reflexivity|].
  cbn [merge_loop].
  rewrite (open_input_agree sigma sigma' output_path p wr f)
    by (apply Hagree; now left).
  assert (forall j wr',
            merge_loop h sigma output_path p pause total j rest wr'
            = merge_loop h sigma' output_path p pause total j rest wr')
    as Hrest.
  { apply IH. intros g Hg. apply Hagree. now right. }
  destruct (open_input h sigma' output_path p wr f) as [seg|e];
    [|reflexivity].
  destruct (writeframes p wr (all_frames seg)) as [wr1|e]; [|reflexivity].
  destruct (i <? total - 1); [|apply Hrest].
  destruct (add_silence h pause _ _ _) as [silence|e]; [|reflexivity].
  destruct (writeframes p wr1 silence) as [wr2|e]; [|reflexivity].
  apply Hrest.
Qed.

Lemma header_fits_le (p : params) (m n : Z) :
  header_fits p n = true -> m <= n -> header_fits p m = true.
Proof.
  unfold header_fits. intros H Hle.
  repeat (apply andb_true_iff in H as [H ?]).
  apply Z.ltb_lt in H.
  repeat (apply andb_true_iff; split); try assumption.
  apply Z.ltb_lt. lia.
Qed.

Lemma header_fits_size (p : params) (n : Z) :
  header_fits p n = true -> 36 + n < 2 ^ 32.
Proof.
  unfold header_fits. intros H.
  repeat (apply andb_true_iff in H as [H ?]).
  now apply Z.ltb_lt in H.
Qed.

Lemma header_fits_framerate (p : params) (n : Z) :
  header_fits p n = true -> framerate p < 2 ^ 32.
Proof.
  unfold header_fits. intros H.
  repeat (apply andb_true_iff in H as [H ?]).
  match goal with H : (framerate p <? 2 ^ 32) = true |- _ =>
    now apply Z.ltb_lt in H end.
Qed.

(** A call of [writeframes] whose data still fits. *)
Lemma writeframes_fits (p : params) (wr : writer) (data : list byte) :
  (header_written wr = false -> written wr = []) ->
  header_fits p (Z.of_nat (List.length (written wr ++ data))) = true ->
  writeframes p wr data = Ok (Writer true (written wr ++ data)).
Proof.
  intros Hfresh Hfits. unfold writeframes.
  destruct wr as [[|] acc]; cbn [header_written written] in *.
  - destruct data as [|b data]; [now rewrite app_nil_r|].
    apply header_fits_size in Hfits.
    now rewrite (proj2 (Z.ltb_lt _ _) Hfits).
  - rewrite (Hfresh eq_refl) in *. cbn [app] in *. now rewrite Hfits.
Qed.

(** The silence inside the range where the float quotient is exact. *)
Lemma add_silence_exact (duration_ms sample_rate channels sampwidth : Z) :
  Z.abs (sample_rate * duration_ms) < 2 ^ 53 ->
  add_silence h duration_ms sample_rate channels sampwidth
  = Ok (repeat x00
          (Z.to_nat (Z.quot (sample_rate * duration_ms) 1000
                     * channels * sampwidth))).
Proof.
  intros Hb. unfold add_silence, silence_frames.
  now rewrite (proj2 (Z.ltb_lt _ _) Hb).
Qed.

Lemma sep_concat_cons2 (sep a b : list byte) (rest : list (list byte)) :
  sep_concat sep (a :: b :: rest) = a ++ sep ++ sep_concat sep (b :: rest).
Proof. reflexivity. Qed.

(** When every file can be read and everything fits, the loop writes the
    frames of all the segments, with one block of silence between two
    neighbours. *)
Lemma merge_loop_all_read (sigma : fs) (output_path : string) (p : params)
    (pause total : Z) (silence : list byte) (wav_files : list string) :
  forall (segs : list (params * list byte)) i wr,
    wav_files <> [] ->
    Forall2 (holds sigma) wav_files segs ->
    ~ In output_path wav_files ->
    total = i + Z.of_nat (List.length wav_files) ->
    ((1 < List.length wav_files)%nat ->
     add_silence h pause (framerate p) (nchannels p) (sampwidth p)
     = Ok silence) ->
    (header_written wr = false -> written wr = []) ->
    header_fits p
      (Z.of_nat
         (List.length
            (written wr ++ sep_concat silence (List.map all_frames segs))))
    = true ->
    merge_loop h sigma output_path p pause total i wav_files wr
    = (Writer true
         (written wr ++ sep_concat silence (List.map all_frames segs)),
       None).
Proof.
  induction wav_files as [|f rest IH];
    intros segs i wr Hne Hall Hout Htotal Hsil Hfresh Hfits; [congruence|].
  inversion Hall as [|? seg ? segs' Hf Hrest]; subst.
  cbn [merge_loop].
  rewrite open_input_other by (intros ->; apply Hout; now left).
  rewrite (wave_open_rb_holds _ _ _ Hf).
  cbn [List.map] in Hfits.
  destruct rest as [|f' rest].
  - inversion Hrest; subst. cbn [List.map sep_concat] in *.
    rewrite (writeframes_fits p wr (all_frames seg) Hfresh Hfits).
    rewrite (proj2 (Z.ltb_ge _ _)) by (cbn [List.length]; lia).
    reflexivity.
  - inversion Hrest as [|? seg' ? segs'' Hf' Hrest']; subst.
    cbn [List.map] in Hfits |- *.
    rewrite sep_concat_cons2 in Hfits |- *.
    change (all_frames seg' :: List.map all_frames segs'')
      with (List.map all_frames (seg' :: segs'')) in Hfits |- *.
    rewrite (writeframes_fits p wr (all_frames seg) Hfresh).
    2:{ eapply header_fits_le; [exact Hfits|].
        rewrite !length_app. lia. }
    rewrite (proj2 (Z.ltb_lt _ _)) by (cbn [List.length]; lia).
    rewrite Hsil by (cbn [List.length]; lia).
    rewrite (writeframes_fits p _ silence); cbn [header_written written].
    2:{ discriminate. }
    2:{ eapply header_fits_le; [exact Hfits|].
        rewrite !length_app. lia. }
    rewrite (IH (seg' :: segs'') (i + 1)); cbn [header_written written].
    + now rewrite <- !app_assoc.
    + discriminate.
    + exact Hrest.
    + intros Hin. apply Hout. now right.
    + cbn [List.length] in *. lia.
    + intros Hlen. apply Hsil. cbn [List.length] in *. lia.
    + discriminate.
    + now rewrite <- !app_assoc.
Qed.

(** A merge over files that can all be read, the first of them with
    parameters [wave] accepts for writing, into an output that can be
    created and whose header fits: it succeeds, whatever the parameters of
    the other segments, and leaves at the output path a file with the
    parameters of the first segment. *)
Lemma merge_wav_files_all_read (sigma : fs) (wav_files : list string)
    (output_path : string) (pause : Z) (silence : list byte)
    (p0 : params) (d0 : list byte) (segs : list (params * list byte)) :
  Forall2 (holds sigma) wav_files ((p0, d0) :: segs) ->
  writable p0 = true ->
  ~ In output_path wav_files ->
  access h output_path = Granted ->
  ((1 < List.length wav_files)%nat ->
   add_silence h pause (framerate p0) (nchannels p0) (sampwidth p0)
   = Ok silence) ->
  header_fits p0
    (Z.of_nat (List.length (track_of silence ((p0, d0) :: segs)))) = true ->
  merge_wav_files h wav_files output_path pause sigma
  = (<[output_path := WavFile p0 (track_of silence ((p0, d0) :: segs))]>
       sigma,
     Ok tt).
Proof.
  intros Hall Hw Hout Hacc Hsil Hfits. unfold merge_wav_files.
  destruct wav_files as [|first rest]; [inversion Hall|].
  assert (holds sigma first (p0, d0)) as Hfirst by now inversion Hall.
  rewrite (wave_open_rb_holds _ _ _ Hfirst), Hacc, Hw.
  rewrite (merge_loop_all_read sigma output_path p0 pause _ silence
             (first :: rest) ((p0, d0) :: segs) 0 (Writer false []));
    try assumption; try reflexivity; try discriminate; lia.
Qed.

End MergeFacts.

Section FrameCounts.

Lemma framesize_pos (p : params) : readable p = true -> 1 <= framesize p.
Proof.
  unfold readable, framesize. intros H.
  apply andb_true_iff in H as [Hc Hs].
  apply Z.leb_le in Hc, Hs. nia.
Qed.

Lemma length_all_frames (p : params) (data : list byte) :
  readable p = true ->
  Z.of_nat (List.length (all_frames (p, data)))
  = getnframes p data * framesize p.
Proof.
  intros Hp. pose proof (framesize_pos p Hp) as Hfs.
  unfold all_frames, readframes, getnframes. cbn [fst snd].
  rewrite length_take.
  pose proof (Z.mul_div_le (Z.of_nat (List.length data)) (framesize p)).
  pose proof (Z.div_pos (Z.of_nat (List.length data)) (framesize p)).
  rewrite (Z.mul_comm (_ / _)). nia.
Qed.

Lemma length_sep_concat (sep : list byte) (blocks : list (list byte)) :
  blocks <> [] ->
  Z.of_nat (List.length (sep_concat sep blocks))
  = fold_right (fun b acc => Z.of_nat (List.length b) + acc) 0 blocks
    + (Z.of_nat (List.length blocks) - 1) * Z.of_nat (List.length sep).
Proof.
  induction blocks as [|b rest IH]; [congruence|]. intros _.
  destruct rest as [|b' rest].
  - cbn. lia.
  - change (sep_concat sep (b :: b' :: rest))
      with (b ++ sep ++ sep_concat sep (b' :: rest)).
    rewrite !length_app, !Nat2Z.inj_add, IH by discriminate.
    cbn [fold_right List.length]. lia.
Qed.

Lemma sum_all_frames (p : params) (datas : list (list byte)) :
  readable p = true ->
  fold_right (fun b acc => Z.of_nat (List.length b) + acc) 0
             (List.map all_frames (List.map (pair p) datas))
  = total_frames (List.map (pair p) datas) * framesize p.
Proof.
  intros Hp. unfold total_frames.
  induction datas as [|d datas IH]; [reflexivity|].
  cbn [List.map fold_right fst snd].
  rewrite IH, (length_all_frames p d Hp). lia.
Qed.

End FrameCounts.

Import Scenario.

(** C2, as stated, fails: two segments whose sample rates differ
    (22050 Hz and 16000 Hz) are merged without complaint.  The merge
    returns normally and the output file is written, with the sample rate
    of the first segment and the frames of both. *)
Lemma mismatch_is_merged :
  merge_wav_files plain_host [chunk_path 1; chunk_path 2] FINAL_OUTPUT 1
                  disk_mismatch
  = (<[FINAL_OUTPUT :=
         WavFile pcm_22k (frames_a ++ repeat x00 44 ++ frames_b)]>
       disk_mismatch,
     Ok tt).
Proof.
  rewrite (merge_wav_files_all_read plain_host disk_mismatch _ FINAL_OUTPUT 1
             (repeat x00 44) pcm_22k frames_a [(pcm_16k, frames_b)]).
  - reflexivity.
  - repeat constructor.
  - reflexivity.
  - intros [H|[H|[]]]; discriminate H.
  - reflexivity.
  - reflexivity.
  - reflexivity.
Qed.

(** C2, amended: the first segment gives the output its format
    ([framerate], [nchannels], [sampwidth]) and the format of the silence;
    the later segments are not compared with it.  Whenever every file can
    be read, the first one has parameters [wave] accepts for writing, the
    output path is none of the files and can be created, the product of frame
    rate and pause is below 2^53 in absolute value and the header fits (the
    track is shorter than 2^32 - 36 bytes and the fields of the format are
    within their ranges), the merge succeeds, whatever the parameters of the
    other segments, and the output file holds the frame bytes of all
    segments, in order, with one block of silence between two neighbours. *)
Theorem first_segment_sets_format (h : host) (sigma : fs)
    (wav_files : list string) (output_path : string) (pause : Z)
    (p0 : params) (d0 : list byte) (segs : list (params * list byte)) :
  let silence :=
    repeat x00
      (Z.to_nat (Z.quot (framerate p0 * pause) 1000
                 * nchannels p0 * sampwidth p0)) in
  let track := track_of silence ((p0, d0) :: segs) in
  Forall2 (holds sigma) wav_files ((p0, d0) :: segs) ->
  writable p0 = true ->
  ~ In output_path wav_files ->
  access h output_path = Granted ->
  Z.abs (framerate p0 * pause) < 2 ^ 53 ->
  header_fits p0 (Z.of_nat (List.length track)) = true ->
  merge_wav_files h wav_files output_path pause sigma
  = (<[output_path := WavFile p0 track]> sigma, Ok tt).
Proof.
  cbv zeta. intros Hall Hw Hout Hacc Hpause Hfits.
  apply merge_wav_files_all_read; try assumption.
  intros _. now apply add_silence_exact.
Qed.

Lemma first_segment_sets_format_witness :
  merge_wav_files plain_host [chunk_path 1; chunk_path 2] FINAL_OUTPUT 1
                  disk_mismatch
  = (<[FINAL_OUTPUT :=
         WavFile pcm_22k
           (track_of (repeat x00 44)
                     [(pcm_22k, frames_a); (pcm_16k, frames_b)])]>
       disk_mismatch,
     Ok tt).
Proof.
  apply (first_segment_sets_format plain_host disk_mismatch
           [chunk_path 1; chunk_path 2] FINAL_OUTPUT 1
           pcm_22k frames_a [(pcm_16k, frames_b)]).
  - repeat constructor.
  - reflexivity.
  - intros [H|[H|[]]]; discriminate H.
  - reflexivity.
  - reflexivity.
  - reflexivity.
Defined.

(** C5, as stated, fails: the pause is not rounded to the nearest frame.
    At 22050 Hz a pause of 15 ms is 330.75 frames; the code inserts 330
    of them, so two segments of 2 frames give 334 frames, not the
    2 + 2 + 331 = 335 of the formula. *)
Lemma pause_is_truncated :
  exists written,
    fst (merge_wav_files plain_host [chunk_path 1; chunk_path 2]
                         FINAL_OUTPUT 15 disk_uniform) !! FINAL_OUTPUT
    = Some (WavFile pcm_22k written)
    /\ getnframes pcm_22k written = 334
    /\ total_frames [(pcm_22k, frames_a); (pcm_22k, frames_b)]
       + (2 - 1) * spec_round_frames 15 22050 = 335.
Proof.
  rewrite (merge_wav_files_all_read plain_host disk_uniform _ FINAL_OUTPUT 15
             (repeat x00 660) pcm_22k frames_a [(pcm_22k, frames_b)]).
  - eexists. cbn [fst]. rewrite lookup_insert_eq.
    split; [reflexivity|]. split; reflexivity.
  - repeat constructor.
  - reflexivity.
  - intros [H|[H|[]]]; discriminate H.
  - reflexivity.
  - reflexivity.
  - reflexivity.
Qed.

(** C5, amended: when the [k] segments all have the format of the first,
    the pause is not negative, [r * p] is below 2^53, the output path is
    none of the files and can be created and the header fits, the block of
    silence after every segment but the last has exactly
    [int(r * p / 1000)] frames of bytes 0x00, the quotient truncated toward
    zero, and the final track has
    [f_1 + ... + f_k + (k - 1) * int(r * p / 1000)] frames.  This is the
    rounded value whenever [r * p] is a multiple of 1000, as with the
    configured pause of 1000 ms. *)
Theorem merged_frame_count (h : host) (sigma : fs) (wav_files : list string)
    (output_path : string) (pause : Z) (p0 : params)
    (datas : list (list byte)) :
  let segs := List.map (pair p0) datas in
  let silence :=
    repeat x00 (Z.to_nat (Z.quot (framerate p0 * pause) 1000 * framesize p0)) in
  let written := track_of silence segs in
  Forall2 (holds sigma) wav_files segs ->
  wav_files <> [] ->
  writable p0 = true ->
  ~ In output_path wav_files ->
  access h output_path = Granted ->
  0 <= pause ->
  framerate p0 * pause < 2 ^ 53 ->
  header_fits p0 (Z.of_nat (List.length written)) = true ->
  add_silence h pause (framerate p0) (nchannels p0) (sampwidth p0)
  = Ok silence
  /\ merge_wav_files h wav_files output_path pause sigma
     = (<[output_path := WavFile p0 written]> sigma, Ok tt)
  /\ getnframes p0 written
     = total_frames segs
       + (Z.of_nat (List.length segs) - 1)
         * Z.quot (framerate p0 * pause) 1000.
Proof.
  cbv zeta. intros Hall Hne Hw Hout Hacc Hpause Hbound Hfits.
  pose proof (writable_readable p0 Hw) as Hr.
  pose proof (framesize_pos p0 Hr) as Hfs.
  pose proof (writable_framerate p0 Hw) as Hrate.
  assert (0 <= Z.quot (framerate p0 * pause) 1000) as Hq.
  { apply Z.quot_pos; nia. }
  assert (add_silence h pause (framerate p0) (nchannels p0) (sampwidth p0)
          = Ok (repeat x00
                  (Z.to_nat (Z.quot (framerate p0 * pause) 1000
                             * framesize p0))))
    as Hsil.
  { rewrite add_silence_exact by (rewrite Z.abs_eq; nia).
    unfold framesize. now rewrite Z.mul_assoc. }
  split; [exact Hsil|].
  destruct datas as [|d0 datas].
  { inversion Hall; subst. congruence. }
  split.
  { apply merge_wav_files_all_read; try assumption. intros _. exact Hsil. }
  unfold getnframes at 1. unfold track_of.
  rewrite length_sep_concat by discriminate.
  rewrite (sum_all_frames p0 (d0 :: datas) Hr).
  rewrite repeat_length, Z2Nat.id by nia.
  rewrite !length_map.
  rewrite Z.mul_assoc, <- Z.mul_add_distr_r.
  apply Z.div_mul. lia.
Qed.

Lemma merged_frame_count_witness :
  add_silence plain_host 15 22050 1 2 = Ok (repeat x00 660)
  /\ merge_wav_files plain_host [chunk_path 1; chunk_path 2] FINAL_OUTPUT 15
                     disk_uniform
     = (<[FINAL_OUTPUT :=
            WavFile pcm_22k (frames_a ++ repeat x00 660 ++ frames_b)]>
          disk_uniform,
        Ok tt)
  /\ getnframes pcm_22k (frames_a ++ repeat x00 660 ++ frames_b)
     = 2 + (2 + 0) + (2 - 1) * 330.
Proof.
  apply (merged_frame_count plain_host disk_uniform
           [chunk_path 1; chunk_path 2] FINAL_OUTPUT 15 pcm_22k
           [frames_a; frames_b]).
  - repeat constructor.
  - discriminate.
  - reflexivity.
  - intros [H|[H|[]]]; discriminate H.
  - reflexivity.
  - lia.
  - reflexivity.
  - reflexivity.
Defined.

(** C9: merging the same files with the same parameters a second time,
    after the first merge has written its output, leaves the same output
    file, byte for byte, and ends the same way.  The output path is not one
    of the files merged. *)
Theorem merge_twice_same (h : host) (sigma : fs) (wav_files : list string)
    (output_path : string) (pause : Z) :
  ~ In output_path wav_files ->
  merge_wav_files h wav_files output_path pause
    (fst (merge_wav_files h wav_files output_path pause sigma))
  = merge_wav_files h wav_files output_path pause sigma.
Proof.
  intros Hout. unfold merge_wav_files.
  destruct wav_files as [|first rest]; [reflexivity|].
  assert (first <> output_path) as Hfirst.
  { intros ->. apply Hout. now left. }
  destruct (wave_open_rb sigma first) as [[p d]|e] eqn:Hopen.
  2:{ cbn [fst]. now rewrite Hopen. }
  assert (forall x, wave_open_rb (<[output_path := x]> sigma) first
                    = Ok (p, d)) as Hopen'.
  { intros x. rewrite <- Hopen. apply wave_open_rb_agree.
    now apply lookup_insert_ne. }
  destruct (access h output_path) eqn:Hacc;
    try (cbn [fst]; now rewrite Hopen).
  destruct (writable p) eqn:Hw.
  - destruct (merge_loop h sigma output_path p pause
                (Z.of_nat (List.length (first :: rest))) 0 (first :: rest)
                (Writer false []))
      as [wr err] eqn:Hloop.
    destruct (close_writer p (getnframes p d) wr err) as [final err'] eqn:Hc.
    cbn [fst]. rewrite Hopen', Hw.
    rewrite <- (merge_loop_agree h sigma (<[output_path := final]> sigma)).
    + rewrite Hloop, Hc. now rewrite insert_insert_eq.
    + intros f _ Hne. symmetry. now apply lookup_insert_ne.
  - cbn [fst]. rewrite Hopen', Hw. now rewrite insert_insert_eq.
Qed.

Lemma merge_twice_same_witness :
  merge_wav_files plain_host [chunk_path 1; chunk_path 2] FINAL_OUTPUT 1000
    (fst (merge_wav_files plain_host [chunk_path 1; chunk_path 2]
                          FINAL_OUTPUT 1000 disk_uniform))
  = merge_wav_files plain_host [chunk_path 1; chunk_path 2] FINAL_OUTPUT 1000
                    disk_uniform.
Proof.
  apply (merge_twice_same plain_host disk_uniform
           [chunk_path 1; chunk_path 2] FINAL_OUTPUT 1000).
  intros [H|[H|[]]]; discriminate H.
Defined.

(* ===================================================================== *)
(** ** Further properties of [add_silence] and [merge_wav_files] *)
(* ===================================================================== *)

Lemma quot_1000_nonpos (a : Z) : a < 1000 -> Z.quot a 1000 <= 0.
Proof.
  intros Ha. destruct (Z_le_gt_dec 0 a) as [Hpos|Hneg].
  - rewrite Z.quot_small by lia. lia.
  - pose proof (Z.quot_opp_l a 1000 ltac:(lia)) as Hopp.
    pose proof (Z.quot_pos (- a) 1000 ltac:(lia) ltac:(lia)). lia.
Qed.

Lemma short_pause_zero (h : host)
    (duration_ms sample_rate channels sampwidth : Z) :
  - 2 ^ 53 < sample_rate * duration_ms ->
  sample_rate * duration_ms < 1000 ->
  0 <= channels ->
  0 <= sampwidth ->
  add_silence h duration_ms sample_rate channels sampwidth = Ok [].
Proof.
  intros Hlow Hshort Hc Hs.
  rewrite add_silence_exact by lia.
  pose proof (quot_1000_nonpos _ Hshort) as Hq.
  replace (Z.to_nat (Z.quot (sample_rate * duration_ms) 1000
                     * channels * sampwidth)) with 0%nat; [reflexivity|].
  symmetry. apply Z2Nat.nonpos.
  rewrite <- Z.mul_assoc. nia.
Qed.





Section MergeMore.

Variable h : host.

Lemma merge_lookup_other (sigma : fs) (wav_files : list string)
    (output_path : string) (pause : Z) (path : string) :
  path <> output_path ->
  fst (merge_wav_files h wav_files output_path pause sigma) !! path
  = sigma !! path.
Proof.
  intros Hne. unfold merge_wav_files.
  destruct wav_files as [|first rest]; [reflexivity|].
  destruct (wave_open_rb sigma first) as [[p d]|e]; [|reflexivity].
  destruct (access h output_path); try reflexivity.
  destruct (writable p).
  - destruct (merge_loop _ _ _ _ _ _ _ _ _) as [wr err].
    destruct (close_writer _ _ _ _) as [final err']. cbn [fst].
    now rewrite lookup_insert_ne by congruence.
  - cbn [fst]. now rewrite lookup_insert_ne by congruence.
Qed.

(** The exceptions met inside the loop. *)
Lemma decode_raises (content : option file) (e : exn) :
  decode content = Raise e ->
  e = FileNotFoundError \/ e = EOFError \/ e = WaveError.
Proof.
  unfold decode. destruct content as [[p d| |]|].
  - destruct (readable p); [discriminate|]. intros [= <-]. auto.
  - intros [= <-]. auto.
  - intros [= <-]. auto.
  - intros [= <-]. auto.
Qed.

Lemma writeframes_raises (p : params) (wr : writer) (data : list byte)
    (e : exn) :
  writeframes p wr data = Raise e -> e = StructError.
Proof.
  unfold writeframes. destruct (header_written wr).
  - destruct data; [discriminate|].
    destruct (_ <? _); [discriminate|]. now intros [= <-].
  - destruct (header_fits _ _); [discriminate|]. now intros [= <-].
Qed.

Lemma add_silence_raises (duration_ms sample_rate channels sampwidth : Z)
    (e : exn) :
  add_silence h duration_ms sample_rate channels sampwidth = Raise e ->
  e = OverflowError.
Proof.
  unfold add_silence, silence_frames.
  destruct (_ <? _); [discriminate|].
  destruct (inexact_quot h _); [discriminate|]. now intros [= <-].
Qed.

Lemma merge_loop_raises (sigma : fs) (output_path : string) (p : params)
    (pause total : Z) (wav_files : list string) (e : exn) :
  forall i wr wr',
    merge_loop h sigma output_path p pause total i wav_files wr
    = (wr', Some e) ->
    e <> IndexError.
Proof.
  induction wav_files as [|f rest IH]; intros i wr wr' Hloop;
    [discriminate|].
  cbn [merge_loop] in Hloop.
  destruct (open_input h sigma output_path p wr f) as [seg|e1] eqn:Hopen.
  2:{ injection Hloop as _ <-. unfold open_input, wave_open_rb in Hopen.
      destruct (String.eqb f output_path);
        apply decode_raises in Hopen as [-> | [-> | ->]]; discriminate. }
  destruct (writeframes p wr (all_frames seg)) as [wr1|e1] eqn:Hw1.
  2:{ injection Hloop as _ <-. apply writeframes_raises in Hw1 as ->.
      discriminate. }
  destruct (i <? total - 1); [|exact (IH _ _ _ Hloop)].
  destruct (add_silence h pause _ _ _) as [silence|e1] eqn:Hsil.
  2:{ injection Hloop as _ <-. apply add_silence_raises in Hsil as ->.
      discriminate. }
  destruct (writeframes p wr1 silence) as [wr2|e1] eqn:Hw2.
  2:{ injection Hloop as _ <-. apply writeframes_raises in Hw2 as ->.
      discriminate. }
  exact (IH _ _ _ Hloop).
Qed.

Lemma merge_index_error (sigma : fs) (wav_files : list string)
    (output_path : string) (pause : Z) :
  snd (merge_wav_files h wav_files output_path pause sigma) = Raise IndexError
  -> wav_files = [].
Proof.
  unfold merge_wav_files.
  destruct wav_files as [|first rest]; [reflexivity|]. intros H. exfalso.
  destruct (wave_open_rb sigma first) as [[p d]|e] eqn:Hopen.
  2:{ cbn [snd] in H. injection H as ->. unfold wave_open_rb in Hopen.
      apply decode_raises in Hopen as [?|[?|?]]; discriminate. }
  destruct (access h output_path); try discriminate.
  destruct (writable p); [|discriminate].
  destruct (merge_loop _ _ _ _ _ _ _ _ _) as [wr err] eqn:Hloop.
  unfold close_writer in H.
  destruct (header_written wr).
  - destruct err as [e|]; cbn [snd] in H; [|discriminate].
    injection H as ->. now apply merge_loop_raises in Hloop.
  - destruct (header_fits _ _); [|discriminate].
    destruct err as [e|]; cbn [snd] in H; [|discriminate].
    injection H as ->. now apply merge_loop_raises in Hloop.
Qed.

Lemma all_frames_whole (p : params) (data : list byte) :
  readable p = true ->
  Z.of_nat (List.length data) mod framesize p = 0 ->
  all_frames (p, data) = data.
Proof.
  intros Hp Hmod. pose proof (framesize_pos p Hp) as Hfs.
  unfold all_frames, readframes, getnframes. cbn [fst snd].
  apply take_ge.
  pose proof (Z.div_mod (Z.of_nat (List.length data)) (framesize p)
                ltac:(lia)) as Hdm.
  rewrite Hmod, Z.add_0_r in Hdm. rewrite Z.mul_comm, <- Hdm. lia.
Qed.

Lemma sep_concat_app (sep : list byte) (xs ys : list (list byte)) :
  xs <> [] -> ys <> [] ->
  sep_concat sep (xs ++ ys) = sep_concat sep xs ++ sep ++ sep_concat sep ys.
Proof.
  intros Hx Hy. induction xs as [|x xs IH]; [congruence|].
  destruct xs as [|x' xs].
  - cbn [app]. destruct ys; [congruence | reflexivity].
  - change ((x :: x' :: xs) ++ ys) with (x :: x' :: (xs ++ ys)).
    rewrite !sep_concat_cons2.
    change (x' :: (xs ++ ys)) with ((x' :: xs) ++ ys).
    rewrite IH by discriminate.
    now rewrite <- !app_assoc.
Qed.

Lemma sep_concat_nil (blocks : list (list byte)) :
  sep_concat [] blocks = List.concat blocks.
Proof.
  induction blocks as [|b blocks IH]; [reflexivity|].
  destruct blocks as [|b' blocks].
  - cbn. now rewrite app_nil_r.
  - rewrite sep_concat_cons2. now rewrite IH.
Qed.

(** Up to a file that cannot be opened, the loop writes every segment
    followed by its block of silence. *)
Lemma merge_loop_stops (sigma : fs) (output_path : string) (p : params)
    (pause total : Z) (silence : list byte)
    (bad : string) (post : list string) (e : exn) (pre : list string) :
  bad <> output_path ->
  wave_open_rb sigma bad = Raise e ->
  add_silence h pause (framerate p) (nchannels p) (sampwidth p)
  = Ok silence ->
  forall (segs : list (params * list byte)) i wr,
    Forall2 (holds sigma) pre segs ->
    ~ In output_path pre ->
    total = i + Z.of_nat (List.length (pre ++ bad :: post)) ->
    (header_written wr = false -> written wr = []) ->
    header_fits p
      (Z.of_nat
         (List.length
            (written wr
               ++ List.concat
                    (List.map (fun seg => all_frames seg ++ silence) segs))))
    = true ->
    merge_loop h sigma output_path p pause total i (pre ++ bad :: post) wr
    = ((match pre with
        | [] => wr
        | _ =>
            Writer true
              (written wr
                 ++ List.concat
                      (List.map (fun seg => all_frames seg ++ silence) segs))
        end),
       Some e).
Proof.
  intros Hbad_ne Hbad Hsil. induction pre as [|f pre IH];
    intros segs i wr Hall Hout Htotal Hfresh Hfits.
  - inversion Hall; subst. cbn [app merge_loop].
    now rewrite open_input_other, Hbad by exact Hbad_ne.
  - inversion Hall as [|? seg ? segs' Hf Hrest]; subst.
    cbn [app merge_loop]. cbn [List.map List.concat] in Hfits |- *.
    rewrite open_input_other by (intros ->; apply Hout; now left).
    rewrite (wave_open_rb_holds _ _ _ Hf).
    rewrite (writeframes_fits p wr (all_frames seg) Hfresh).
    2:{ eapply header_fits_le; [exact Hfits|]. rewrite !length_app. lia. }
    rewrite (proj2 (Z.ltb_lt _ _)).
    2:{ cbn [app List.length]. rewrite length_app. cbn [List.length]. lia. }
    rewrite Hsil.
    rewrite (writeframes_fits p _ silence); cbn [header_written written].
    2:{ discriminate. }
    2:{ eapply header_fits_le; [exact Hfits|]. rewrite !length_app. lia. }
    rewrite (IH segs' (i + 1)); cbn [header_written written].
    + destruct pre.
      * inversion Hrest; subst. cbn [List.map List.concat].
        now rewrite !app_nil_r, <- !app_assoc.
      * now rewrite <- !app_assoc.
    + exact Hrest.
    + intros Hin. apply Hout. now right.
    + cbn [app List.length]. lia.
    + discriminate.
    + repeat rewrite <- app_assoc in Hfits.
      repeat rewrite <- app_assoc. exact Hfits.
Qed.

End MergeMore.

(** The merge writes at the output path and nowhere else: no other file is
    changed, created or removed, however the merge ends. *)
Theorem merge_touches_only_output (h : host) (sigma : fs)
    (wav_files : list string) (output_path : string) (pause : Z)
    (path : string) :
  path <> output_path ->
  fst (merge_wav_files h wav_files output_path pause sigma) !! path
  = sigma !! path.
Proof. apply merge_lookup_other. Qed.

Lemma merge_touches_only_output_witness :
  fst (merge_wav_files plain_host [chunk_path 1; chunk_path 2] FINAL_OUTPUT
                       1000 disk_mismatch) !! chunk_path 2
  = disk_mismatch !! chunk_path 2.
Proof.
  apply (merge_touches_only_output plain_host disk_mismatch
           [chunk_path 1; chunk_path 2] FINAL_OUTPUT 1000 (chunk_path 2)).
  discriminate.
Defined.

(** The merge raises [IndexError] exactly when the list of files is empty,
    and it then leaves the file system as it was. *)
Theorem merge_exceptions (h : host) (sigma : fs) (wav_files : list string)
    (output_path : string) (pause : Z) :
  (snd (merge_wav_files h wav_files output_path pause sigma)
   = Raise IndexError <-> wav_files = [])
  /\ (wav_files = [] ->
      fst (merge_wav_files h wav_files output_path pause sigma) = sigma).
Proof.
  split; [split|].
  - apply merge_index_error.
  - now intros ->.
  - now intros ->.
Qed.

(** When the files listed before a missing file can all be read, there is
    at least one of them, the first has parameters accepted for writing,
    and output path, pause and sizes are as for a successful merge, the
    merge raises [FileNotFoundError] but not before the output file has
    been written: it is left behind with the segments that precede the
    missing file, each followed by a block of silence. *)
Theorem merge_stops_at_missing_file (h : host) (sigma : fs)
    (pre post : list string) (bad output_path : string) (pause : Z)
    (p0 : params) (d0 : list byte) (segs : list (params * list byte)) :
  let silence :=
    repeat x00
      (Z.to_nat (Z.quot (framerate p0 * pause) 1000
                 * nchannels p0 * sampwidth p0)) in
  let partial :=
    List.concat
      (List.map (fun seg => all_frames seg ++ silence) ((p0, d0) :: segs)) in
  Forall2 (holds sigma) pre ((p0, d0) :: segs) ->
  writable p0 = true ->
  sigma !! bad = None ->
  ~ In output_path (pre ++ bad :: post) ->
  access h output_path = Granted ->
  Z.abs (framerate p0 * pause) < 2 ^ 53 ->
  header_fits p0 (Z.of_nat (List.length partial)) = true ->
  merge_wav_files h (pre ++ bad :: post) output_path pause sigma
  = (<[output_path := WavFile p0 partial]> sigma, Raise FileNotFoundError).
Proof.
  cbv zeta. intros Hall Hw Hbad Hout Hacc Hpause Hfits.
  unfold merge_wav_files.
  destruct pre as [|first pre]; [inversion Hall|].
  cbn [app]. change (first :: pre ++ bad :: post)
    with ((first :: pre) ++ bad :: post).
  assert (holds sigma first (p0, d0)) as Hfirst by now inversion Hall.
  rewrite (wave_open_rb_holds _ _ _ Hfirst), Hacc, Hw.
  assert (~ In output_path (first :: pre)) as Hout_pre.
  { intros Hin. apply Hout, List.in_or_app. now left. }
  assert (bad <> output_path) as Hne.
  { intros ->. apply Hout, List.in_or_app. right. now left. }
  assert (wave_open_rb sigma bad = Raise FileNotFoundError) as Hraise.
  { unfold wave_open_rb. now rewrite Hbad. }
  rewrite (merge_loop_stops h sigma output_path p0 pause _ _ bad post
             FileNotFoundError (first :: pre) Hne Hraise
             (add_silence_exact h _ _ _ _ Hpause)
             ((p0, d0) :: segs) 0 (Writer false []));
    try assumption; try reflexivity; try discriminate; lia.
Qed.

Lemma merge_stops_at_missing_file_witness :
  merge_wav_files plain_host
                  ([chunk_path 1; chunk_path 2] ++ chunk_path 3 :: [])
                  FINAL_OUTPUT 1 disk_uniform
  = (<[FINAL_OUTPUT :=
         WavFile pcm_22k
           (frames_a ++ repeat x00 44 ++ frames_b ++ repeat x00 44)]>
       disk_uniform,
     Raise FileNotFoundError).
Proof.
  apply (merge_stops_at_missing_file plain_host disk_uniform
           [chunk_path 1; chunk_path 2] [] (chunk_path 3) FINAL_OUTPUT 1
           pcm_22k frames_a [(pcm_22k, frames_b)]).
  - repeat constructor.
  - reflexivity.
  - reflexivity.
  - intros [H|[H|[H|[]]]]; discriminate H.
  - reflexivity.
  - reflexivity.
  - reflexivity.
Defined.

(** Merging a single file copies it, whatever the pause, when the file is
    not the output itself, its data is a whole number of frames, its
    parameters are accepted for writing, and the output can be created
    with a header that fits: the output has the same parameters and the
    same bytes. *)
Theorem merge_single_file_copies (h : host) (sigma : fs)
    (wav_file output_path : string) (pause : Z) (p : params)
    (data : list byte) :
  sigma !! wav_file = Some (WavFile p data) ->
  writable p = true ->
  Z.of_nat (List.length data) mod framesize p = 0 ->
  wav_file <> output_path ->
  access h output_path = Granted ->
  header_fits p (Z.of_nat (List.length data)) = true ->
  merge_wav_files h [wav_file] output_path pause sigma
  = (<[output_path := WavFile p data]> sigma, Ok tt).
Proof.
  intros Hfile Hw Hmod Hne Hacc Hfits.
  pose proof (writable_readable p Hw) as Hr.
  rewrite (merge_wav_files_all_read h sigma [wav_file] output_path pause
             [] p data []).
  - unfold track_of. cbn [List.map sep_concat].
    now rewrite (all_frames_whole p data Hr Hmod).
  - constructor; [now split | constructor].
  - exact Hw.
  - intros [H|[]]. congruence.
  - exact Hacc.
  - cbn [List.length]. lia.
  - unfold track_of. cbn [List.map sep_concat].
    now rewrite (all_frames_whole p data Hr Hmod).
Qed.

Lemma merge_single_file_copies_witness :
  merge_wav_files plain_host [chunk_path 2] FINAL_OUTPUT 1000 disk_uniform
  = (<[FINAL_OUTPUT := WavFile pcm_22k frames_b]> disk_uniform, Ok tt).
Proof.
  apply (merge_single_file_copies plain_host disk_uniform (chunk_path 2)
           FINAL_OUTPUT 1000 pcm_22k frames_b).
  - reflexivity.
  - reflexivity.
  - reflexivity.
  - discriminate.
  - reflexivity.
  - reflexivity.
Defined.

(** Merges compose.  When two lists of readable files start with segments
    of the same format, the output path is none of the files and can be
    created, the product of frame rate and pause is below 2^53 in absolute
    value and the header of the longest track fits, each list merges into its
    track and the two lists put end to end merge into the first track, one
    block of silence, and the second track. *)
Theorem merge_of_append (h : host) (sigma : fs) (files1 files2 : list string)
    (output_path : string) (pause : Z) (p : params) (d1 d2 : list byte)
    (segs1 segs2 : list (params * list byte)) :
  let silence :=
    repeat x00
      (Z.to_nat (Z.quot (framerate p * pause) 1000
                 * nchannels p * sampwidth p)) in
  let track1 := track_of silence ((p, d1) :: segs1) in
  let track2 := track_of silence ((p, d2) :: segs2) in
  Forall2 (holds sigma) files1 ((p, d1) :: segs1) ->
  Forall2 (holds sigma) files2 ((p, d2) :: segs2) ->
  writable p = true ->
  ~ In output_path (files1 ++ files2) ->
  access h output_path = Granted ->
  Z.abs (framerate p * pause) < 2 ^ 53 ->
  header_fits p (Z.of_nat (List.length (track1 ++ silence ++ track2)))
  = true ->
  merge_wav_files h files1 output_path pause sigma
  = (<[output_path := WavFile p track1]> sigma, Ok tt)
  /\ merge_wav_files h files2 output_path pause sigma
     = (<[output_path := WavFile p track2]> sigma, Ok tt)
  /\ merge_wav_files h (files1 ++ files2) output_path pause sigma
     = (<[output_path := WavFile p (track1 ++ silence ++ track2)]> sigma,
        Ok tt).
Proof.
  cbv zeta.
  set (silence :=
         repeat x00
           (Z.to_nat (Z.quot (framerate p * pause) 1000
                      * nchannels p * sampwidth p))).
  intros Hall1 Hall2 Hw Hout Hacc Hpause Hfits.
  pose proof (add_silence_exact h _ _ (nchannels p) (sampwidth p) Hpause)
    as Hsil.
  fold silence in Hsil.
  assert (~ In output_path files1) as Hout1.
  { intros Hin. apply Hout, List.in_or_app. now left. }
  assert (~ In output_path files2) as Hout2.
  { intros Hin. apply Hout, List.in_or_app. now right. }
  assert (track_of silence (((p, d1) :: segs1) ++ (p, d2) :: segs2)
          = track_of silence ((p, d1) :: segs1) ++ silence
            ++ track_of silence ((p, d2) :: segs2)) as Htrack.
  { unfold track_of. rewrite List.map_app.
    now apply sep_concat_app. }
  split; [|split].
  - apply merge_wav_files_all_read; try assumption; [now intros _|].
    eapply header_fits_le; [exact Hfits|]. rewrite length_app. lia.
  - apply merge_wav_files_all_read; try assumption; [now intros _|].
    eapply header_fits_le; [exact Hfits|]. rewrite !length_app. lia.
  - rewrite <- Htrack in Hfits |- *.
    apply merge_wav_files_all_read; try assumption.
    + change (Forall2 (holds sigma) (files1 ++ files2)
                      (((p, d1) :: segs1) ++ (p, d2) :: segs2)).
      now apply Forall2_app.
    + now intros _.
Qed.

Lemma merge_of_append_witness :
  merge_wav_files plain_host [chunk_path 1] FINAL_OUTPUT 1 disk_uniform
  = (<[FINAL_OUTPUT := WavFile pcm_22k frames_a]> disk_uniform, Ok tt)
  /\ merge_wav_files plain_host [chunk_path 2] FINAL_OUTPUT 1 disk_uniform
     = (<[FINAL_OUTPUT := WavFile pcm_22k frames_b]> disk_uniform, Ok tt)
  /\ merge_wav_files plain_host ([chunk_path 1] ++ [chunk_path 2])
                     FINAL_OUTPUT 1 disk_uniform
     = (<[FINAL_OUTPUT :=
            WavFile pcm_22k (frames_a ++ repeat x00 44 ++ frames_b)]>
          disk_uniform,
        Ok tt).
Proof.
  apply (merge_of_append plain_host disk_uniform [chunk_path 1]
           [chunk_path 2] FINAL_OUTPUT 1 pcm_22k frames_a frames_b [] []).
  - repeat constructor.
  - repeat constructor.
  - reflexivity.
  - intros [H|[H|[]]]; discriminate H.
  - reflexivity.
  - reflexivity.
  - reflexivity.
Defined.

(** With a pause too short for one frame (among them a pause of zero), a
    merge of readable files into an output that is none of them writes the
    plain concatenation of the frames of the segments; the first segment
    has parameters accepted for writing, the output can be created, the
    product of frame rate and pause is above -2^53 and the header fits. *)
Theorem merge_without_pause (h : host) (sigma : fs) (wav_files : list string)
    (output_path : string) (pause : Z) (p0 : params) (d0 : list byte)
    (segs : list (params * list byte)) :
  let track := List.concat (List.map all_frames ((p0, d0) :: segs)) in
  Forall2 (holds sigma) wav_files ((p0, d0) :: segs) ->
  writable p0 = true ->
  ~ In output_path wav_files ->
  access h output_path = Granted ->
  - 2 ^ 53 < framerate p0 * pause ->
  framerate p0 * pause < 1000 ->
  header_fits p0 (Z.of_nat (List.length track)) = true ->
  merge_wav_files h wav_files output_path pause sigma
  = (<[output_path := WavFile p0 track]> sigma, Ok tt).
Proof.
  cbv zeta. intros Hall Hw Hout Hacc Hlow Hshort Hfits.
  rewrite <- sep_concat_nil in Hfits |- *.
  apply (merge_wav_files_all_read h sigma wav_files output_path pause []);
    try assumption.
  intros _. apply short_pause_zero; try assumption.
  - unfold writable in Hw. repeat (apply andb_true_iff in Hw as [Hw ?]).
    apply Z.leb_le in Hw. lia.
  - unfold writable in Hw. repeat (apply andb_true_iff in Hw as [Hw ?]).
    match goal with H : (1 <=? sampwidth p0) = true |- _ =>
      apply Z.leb_le in H; lia end.
Qed.

Lemma merge_without_pause_witness :
  merge_wav_files plain_host [chunk_path 1; chunk_path 2] FINAL_OUTPUT 0
                  disk_uniform
  = (<[FINAL_OUTPUT :=
         WavFile pcm_22k
           (List.concat
              (List.map all_frames
                 [(pcm_22k, frames_a); (pcm_22k, frames_b)]))]>
       disk_uniform,
     Ok tt).
Proof.
  apply (merge_without_pause plain_host disk_uniform
           [chunk_path 1; chunk_path 2] FINAL_OUTPUT 0 pcm_22k frames_a
           [(pcm_22k, frames_b)]).
  - repeat constructor.
  - reflexivity.
  - intros [H|[H|[]]]; discriminate H.
  - reflexivity.
  - reflexivity.
  - reflexivity.
  - reflexivity.
Defined.

(* ===================================================================== *)
(** ** The pipeline: [generate_audio_chunk] and [main] *)
(* ===================================================================== *)

Section PipelineFacts.

Variable eng : engine.

(** The loop runs the engine once for each chunk, in order, up to the
    first run that raises. *)
Lemma synthesis_loop_invocations (chunks : list str) :
  forall i audio_files w,
    invocations (fst (synthesis_loop eng i chunks audio_files w))
    = invocations w
      ++ enumerate
           (take (List.length
                    (engine_answers eng (List.length (invocations w)) chunks))
                 chunks)
           i.
Proof.
  induction chunks as [|c rest IH]; intros i audio_files w.
  - cbn. now rewrite app_nil_r.
  - cbn [synthesis_loop engine_answers]. unfold generate_audio_chunk.
    destruct (eng (List.length (invocations w)) c) as [[f|]| |e];
      cbn [List.length take enumerate fst invocations];
      try rewrite IH; cbn [invocations];
      rewrite ?length_app; cbn [List.length]; rewrite ?Nat.add_1_r;
      try (now rewrite <- app_assoc); reflexivity.
Qed.

Lemma attempts_enumerate (chunks : list str) :
  forall start i,
    List.length
      (List.filter (fun c : Z * str => fst c =? i) (enumerate chunks start))
    = if (start <=? i) && (i <? start + Z.of_nat (List.length chunks))
      then 1%nat else 0%nat.
Proof.
  induction chunks as [|c rest IH]; intros start i.
  - cbn [enumerate List.filter List.length].
    destruct (Z.leb_spec start i), (Z.ltb_spec i (start + Z.of_nat 0));
      cbn; try reflexivity; lia.
  - cbn [enumerate List.filter fst]. specialize (IH (start + 1) i).
    destruct (Z.eqb_spec start i) as [->|Hne]; cbn [List.length]; rewrite IH.
    + rewrite (proj2 (Z.leb_gt _ _)) by lia. cbn [andb].
      rewrite Z.leb_refl, (proj2 (Z.ltb_lt _ _)) by lia. reflexivity.
    + destruct (Z.leb_spec (start + 1) i), (Z.leb_spec start i);
        try lia; cbn [andb]; [|reflexivity].
      destruct (Z.ltb_spec i (start + 1 + Z.of_nat (List.length rest))),
               (Z.ltb_spec i (start + Z.of_nat (S (List.length rest))));
        try reflexivity; lia.
Qed.


(** The loop keeps the files of the runs that exit with status zero and
    prints a warning for the runs that exit with another status; a run that
    raises ends the loop. *)
Lemma synthesis_loop_sorts (chunks : list str) :
  forall i audio_files w,
    snd (synthesis_loop eng i chunks audio_files w)
    = match crash_of
              (engine_answers eng (List.length (invocations w)) chunks) with
      | Some e => Raise e
      | None =>
          Ok (audio_files
                ++ List.map chunk_path
                     (succeeded_numbers
                        (engine_answers eng (List.length (invocations w))
                                        chunks) i))
      end
    /\ printed (fst (synthesis_loop eng i chunks audio_files w))
       = printed w
         ++ List.map Skipping
              (failed_numbers
                 (engine_answers eng (List.length (invocations w)) chunks) i).
Proof.
  induction chunks as [|c rest IH]; intros i audio_files w.
  - cbn. now rewrite !app_nil_r.
  - cbn [synthesis_loop engine_answers]. unfold generate_audio_chunk.
    destruct (eng (List.length (invocations w)) c) as [[f|]| |e].
    + destruct (IH (i + 1) (audio_files ++ [chunk_path i])
                   (World (<[chunk_path i := f]> (files w))
                          (invocations w ++ [(i, c)]) (printed w)))
        as [H1 H2].
      cbn [invocations printed] in H1, H2.
      rewrite length_app in H1, H2. cbn [List.length] in H1, H2.
      rewrite Nat.add_1_r in H1, H2. rewrite H1, H2.
      cbn [crash_of succeeded_numbers failed_numbers List.map].
      split; [|reflexivity].
      destruct (crash_of _); [reflexivity | now rewrite <- app_assoc].
    + destruct (IH (i + 1) (audio_files ++ [chunk_path i])
                   (World (files w) (invocations w ++ [(i, c)]) (printed w)))
        as [H1 H2].
      cbn [invocations printed] in H1, H2.
      rewrite length_app in H1, H2. cbn [List.length] in H1, H2.
      rewrite Nat.add_1_r in H1, H2. rewrite H1, H2.
      cbn [crash_of succeeded_numbers failed_numbers List.map].
      split; [|reflexivity].
      destruct (crash_of _); [reflexivity | now rewrite <- app_assoc].
    + destruct (IH (i + 1) audio_files
                   (World (files w) (invocations w ++ [(i, c)])
                          (printed w ++ [Skipping i])))
        as [H1 H2].
      cbn [files invocations printed] in *.
      rewrite length_app in H1, H2. cbn [List.length] in H1, H2.
      rewrite Nat.add_1_r in H1, H2. rewrite H1, H2.
      cbn [crash_of succeeded_numbers failed_numbers List.map].
      split; [reflexivity | now rewrite <- app_assoc].
    + cbn. now rewrite app_nil_r.
Qed.

(** Each run the loop makes ends in exactly one way, and without a run
    that raises there is a run for every chunk. *)
Lemma answers_partition (chunks : list str) :
  forall calls i,
    (List.length (succeeded_numbers (engine_answers eng calls chunks) i)
     + List.length (failed_numbers (engine_answers eng calls chunks) i)
     + match crash_of (engine_answers eng calls chunks) with
       | Some _ => 1
       | None => 0
       end
     = List.length (engine_answers eng calls chunks))%nat
    /\ (crash_of (engine_answers eng calls chunks) = None ->
        List.length (engine_answers eng calls chunks) = List.length chunks).
Proof.
  induction chunks as [|c rest IH]; intros calls i; [now split|].
  cbn [engine_answers]. specialize (IH (S calls) (i + 1)).
  destruct IH as [IH1 IH2].
  destruct (eng calls c) as [[f|]| |e];
    cbn [succeeded_numbers failed_numbers crash_of List.length];
    (split; [lia|]); try (intros Hc; rewrite (IH2 Hc); reflexivity).
  discriminate.
Qed.

(** The loop writes chunk files only. *)
Lemma synthesis_loop_lookup_other (path : string) (chunks : list str) :
  (forall k, path <> chunk_path k) ->
  forall i audio_files w,
    files (fst (synthesis_loop eng i chunks audio_files w)) !! path
    = files w !! path.
Proof.
  intros Hpath. induction chunks as [|c rest IH]; intros i audio_files w;
    [reflexivity|].
  cbn [synthesis_loop]. unfold generate_audio_chunk.
  destruct (eng (List.length (invocations w)) c) as [[f|]| |e];
    try rewrite IH; cbn [fst files]; try reflexivity.
  apply lookup_insert_ne. intros Heq. now apply (Hpath i).
Qed.

End PipelineFacts.

Section MainFacts.

Variable h : host.
Variable eng : engine.

Lemma holds_insert_other (sigma : fs) (path : string) (x : file)
    (wav_files : list string) (segs : list (params * list byte)) :
  ~ In path wav_files ->
  Forall2 (holds sigma) wav_files segs ->
  Forall2 (holds (<[path := x]> sigma)) wav_files segs.
Proof.
  intros Hout Hall. induction Hall as [|f seg fs' segs' Hf _ IH];
    constructor.
  - destruct Hf as [Hfile Hread]. split; [|exact Hread].
    rewrite lookup_insert_ne; [exact Hfile|].
    intros ->. apply Hout. now left.
  - apply IH. intros Hin. apply Hout. now right.
Qed.

(** When every run exits with another status than zero or leaves a
    readable wave file, the loop ends normally, the list holds the
    successful segments in chunk order and the warnings name the failed
    chunks. *)
Lemma synthesis_loop_tracks (chunks : list str) :
  forall i audio_files w segs,
    0 <= i ->
    Forall answer_ok
           (engine_answers eng (List.length (invocations w)) chunks) ->
    Forall2 (holds (files w)) audio_files segs ->
    (forall f, In f audio_files -> exists k, 0 <= k < i /\ f = chunk_path k) ->
    exists w' audio_files',
      synthesis_loop eng i chunks audio_files w = (w', Ok audio_files')
      /\ Forall2 (holds (files w')) audio_files'
           (segs
              ++ segments_of
                   (engine_answers eng (List.length (invocations w)) chunks))
      /\ (forall f, In f audio_files' -> exists k, 0 <= k /\ f = chunk_path k)
      /\ printed w'
         = printed w
           ++ List.map Skipping
                (failed_numbers
                   (engine_answers eng (List.length (invocations w)) chunks)
                   i).
Proof.
  induction chunks as [|c rest IH];
    intros i audio_files w segs Hi Hok Hall Hrange.
  - exists w, audio_files. cbn. rewrite !app_nil_r.
    split; [reflexivity|]. split; [exact Hall|]. split; [|reflexivity].
    intros f Hf. destruct (Hrange f Hf) as (k & Hk & ->).
    exists k. split; [lia | reflexivity].
  - cbn [synthesis_loop engine_answers] in *. unfold generate_audio_chunk.
    destruct (eng (List.length (invocations w)) c) as [[[p d| |]|]| |e]
      eqn:Heng;
      inversion Hok as [|a answers Ha Hrest]; subst;
      cbn [answer_ok] in Ha; try contradiction.
    + (* a segment *)
      assert (~ In (chunk_path i) audio_files) as Hfresh.
      { intros Hin. destruct (Hrange _ Hin) as (k & Hk & Heq).
        apply chunk_path_inj in Heq; lia. }
      specialize (IH (i + 1)
                     (audio_files ++ [chunk_path i])
                     (World (<[chunk_path i := WavFile p d]> (files w))
                            (invocations w ++ [(i, c)]) (printed w))
                     (segs ++ [(p, d)])).
      cbn [files invocations printed] in IH.
      rewrite length_app in IH. cbn [List.length] in IH.
      rewrite Nat.add_1_r in IH.
      destruct IH as (w' & af' & IH0 & IH1 & IH2 & IH3).
      * lia.
      * exact Hrest.
      * apply Forall2_app.
        -- now apply holds_insert_other.
        -- constructor; [|constructor]. split; [|exact Ha].
           apply lookup_insert_eq.
      * intros f Hf. apply List.in_app_or in Hf as [Hf|[<-|[]]].
        -- destruct (Hrange f Hf) as (k & Hk & ->).
           exists k. split; [lia | reflexivity].
        -- exists i. split; [lia | reflexivity].
      * exists w', af'. cbn [segments_of failed_numbers].
        rewrite <- app_assoc in IH1. cbn [app] in IH1.
        split; [exact IH0|]. split; [exact IH1|].
        split; [exact IH2 | exact IH3].
    + (* a run that exits with another status *)
      specialize (IH (i + 1) audio_files
                     (World (files w) (invocations w ++ [(i, c)])
                            (printed w ++ [Skipping i]))
                     segs).
      cbn [files invocations printed] in IH.
      rewrite length_app in IH. cbn [List.length] in IH.
      rewrite Nat.add_1_r in IH.
      destruct IH as (w' & af' & IH0 & IH1 & IH2 & IH3).
      * lia.
      * exact Hrest.
      * exact Hall.
      * intros f Hf. destruct (Hrange f Hf) as (k & Hk & ->).
        exists k. split; [lia | reflexivity].
      * exists w', af'. cbn [segments_of failed_numbers List.map].
        split; [exact IH0|]. split; [exact IH1|]. split; [exact IH2|].
        rewrite IH3, <- app_assoc. reflexivity.
Qed.

(** Nothing after the loop runs the engine, and what is printed after the
    loop comes after what the loop printed. *)
Lemma main_after_loop (full_text : str) (w : world) :
  let looped :=
    synthesis_loop eng 1 (chunk_text full_text CHUNK_SIZE) [] w in
  invocations (fst (main h eng full_text w)) = invocations (fst looped)
  /\ exists tail,
       printed (fst (main h eng full_text w))
       = printed (fst looped) ++ tail.
Proof.
  cbv zeta. unfold main.
  destruct (synthesis_loop eng 1 _ [] w) as [w1 [audio_files|e]];
    cbn [fst].
  2:{ split; [reflexivity|]. exists []. now rewrite app_nil_r. }
  destruct audio_files as [|a rest].
  { split; [reflexivity|]. now exists [NoAudio]. }
  destruct (merge_wav_files _ _ _ _ _) as [sigma r].
  destruct r as [u|e].
  2:{ split; [reflexivity|]. exists []. now rewrite app_nil_r. }
  destruct (wave_open_rb sigma FINAL_OUTPUT) as [[p d]|e].
  2:{ split; [reflexivity|]. exists []. now rewrite app_nil_r. }
  destruct (framerate p =? 0); cbn [fst invocations printed].
  - split; [reflexivity|]. exists []. now rewrite app_nil_r.
  - split; [reflexivity|]. now exists [Complete].
Qed.

Lemma main_lookup_other (full_text : str) (w : world) (path : string) :
  path <> FINAL_OUTPUT ->
  (forall k, path <> chunk_path k) ->
  files (fst (main h eng full_text w)) !! path = files w !! path.
Proof.
  intros Hfinal Hchunk. unfold main.
  pose proof (synthesis_loop_lookup_other eng path
                (chunk_text full_text CHUNK_SIZE) Hchunk 1 [] w) as Hloop.
  destruct (synthesis_loop eng 1 _ [] w) as [w1 [audio_files|e]];
    cbn [fst] in Hloop; [|exact Hloop].
  destruct audio_files as [|a rest]; [exact Hloop|].
  pose proof (merge_lookup_other h (files w1) (a :: rest) FINAL_OUTPUT
                PAUSE_BETWEEN_CHUNKS_MS path Hfinal) as Hmerge.
  destruct (merge_wav_files _ _ _ _ _) as [sigma r]. cbn [fst] in Hmerge.
  destruct r as [u|e]; cbn [fst files]; [|congruence].
  destruct (wave_open_rb sigma FINAL_OUTPUT) as [[p d]|e];
    cbn [fst files]; [|congruence].
  destruct (framerate p =? 0); cbn [fst files]; congruence.
Qed.

End MainFacts.

(** C3, as stated, fails: a chunk whose synthesis fails is not tried
    again.  With an engine whose first run fails and whose second run
    would succeed, the only chunk of ["Hi."] is run once and then skipped:
    for a limit of two attempts or more, it is given up before the limit. *)
Lemma failed_chunk_not_retried :
  let w := fst (main plain_host fails_first (lit "Hi.") empty_world) in
  invocations w = [(1, lit "Hi.")]
  /\ attempts w 1 = 1%nat
  /\ printed w = [Skipping 1; NoAudio]
  /\ fails_first 1%nat (lit "Hi.") = Exit0 (Some (WavFile pcm_8hz frames_a)).
Proof. cbv zeta. repeat split; reflexivity. Qed.

(** C3, amended: no chunk is attempted twice.  The engine is run once for
    each chunk, in chunk order, whether the run succeeds or fails, up to
    the first run that raises another exception than a non-zero exit, which
    ends the program; without such a run every chunk is attempted exactly
    once.  A chunk whose run exits with another status than zero is skipped
    at once: a warning is printed for it and its file is not among the
    audio files kept for the merge.  There is no retry, no limit of
    attempts and no delay. *)
Theorem each_chunk_attempted_once (h : host) (eng : engine)
    (full_text : str) (sigma : fs) (out : list event) :
  let chunks := chunk_text full_text CHUNK_SIZE in
  let answers := engine_answers eng 0 chunks in
  let w := fst (main h eng full_text (World sigma [] out)) in
  invocations w = enumerate (take (List.length answers) chunks) 1
  /\ (forall i,
        attempts w i
        = if (1 <=? i) && (i <=? Z.of_nat (List.length answers))
          then 1%nat else 0%nat)
  /\ (crash_of answers = None -> List.length answers = List.length chunks)
  /\ snd (synthesis_loop eng 1 chunks [] (World sigma [] out))
     = match crash_of answers with
       | Some e => Raise e
       | None => Ok (List.map chunk_path (succeeded_numbers answers 1))
       end
  /\ exists tail,
       printed w = out ++ List.map Skipping (failed_numbers answers 1) ++ tail.
Proof.
  cbv zeta.
  destruct (main_after_loop h eng full_text (World sigma [] out))
    as (Hinv & tail & Hprinted).
  pose proof (synthesis_loop_invocations eng
                (chunk_text full_text CHUNK_SIZE) 1 [] (World sigma [] out))
    as Hloop.
  destruct (synthesis_loop_sorts eng (chunk_text full_text CHUNK_SIZE) 1 []
              (World sigma [] out)) as [Hkept Hwarn].
  cbn [invocations printed app List.length] in Hloop, Hkept, Hwarn.
  rewrite Hloop in Hinv.
  split; [exact Hinv|]. split; [|split; [|split]].
  - intros i. unfold attempts. rewrite Hinv, attempts_enumerate.
    rewrite length_take.
    pose proof (answers_partition eng (chunk_text full_text CHUNK_SIZE) 0 1)
      as [_ _].
    assert (List.length
              (engine_answers eng 0 (chunk_text full_text CHUNK_SIZE))
            <= List.length (chunk_text full_text CHUNK_SIZE))%nat as Hle.
    { clear. generalize 0%nat.
      induction (chunk_text full_text CHUNK_SIZE) as [|c rest IH];
        intros calls; [reflexivity|].
      cbn [engine_answers]. specialize (IH (S calls)).
      destruct (eng calls c) as [[f|]| |e]; cbn [List.length]; lia. }
    rewrite Nat.min_l by exact Hle.
    destruct (Z.leb_spec 1 i); cbn [andb]; [|reflexivity].
    destruct (Z.ltb_spec i
                (1 + Z.of_nat
                       (List.length
                          (engine_answers eng 0
                             (chunk_text full_text CHUNK_SIZE))))),
             (Z.leb_spec i
                (Z.of_nat
                   (List.length
                      (engine_answers eng 0
                         (chunk_text full_text CHUNK_SIZE)))));
      try reflexivity; lia.
  - apply (answers_partition eng (chunk_text full_text CHUNK_SIZE) 0 1).
  - exact Hkept.
  - exists tail. rewrite Hprinted, Hwarn. now rewrite <- app_assoc.
Qed.




(** C4, as stated, fails: with three chunks of which the second fails,
    the final track is segment 1, one block of silence, segment 3.  A
    failed chunk is left out of the list that is merged, and the merge puts
    one pause between two files of the list; there is no second pause. *)
Lemma failed_chunk_single_silence :
  let w := fst (main plain_host fails_second three_sentences empty_world) in
  List.length (chunk_text three_sentences CHUNK_SIZE) = 3%nat
  /\ printed w = [Skipping 2; Complete]
  /\ add_silence plain_host PAUSE_BETWEEN_CHUNKS_MS 8 1 2
     = Ok (repeat x00 16)
  /\ files w !! FINAL_OUTPUT
     = Some (WavFile pcm_8hz (frames_a ++ repeat x00 16 ++ frames_b))
  /\ files w !! FINAL_OUTPUT
     <> Some (WavFile pcm_8hz
                (frames_a ++ repeat x00 16 ++ repeat x00 16 ++ frames_b)).
Proof.
  cbv zeta.
  assert (files (fst (main plain_host fails_second three_sentences
                           empty_world))
            !! FINAL_OUTPUT
          = Some (WavFile pcm_8hz (frames_a ++ repeat x00 16 ++ frames_b)))
    as Hfinal by (vm_compute; reflexivity).
  split; [vm_compute; reflexivity|].
  split; [vm_compute; reflexivity|].
  split; [reflexivity|].
  split; [exact Hfinal|].
  rewrite Hfinal. discriminate.
Qed.

(** C4, amended: a run in which some chunks fail is not aborted by the
    failures.  When every run of the engine exits with another status than
    zero or leaves a wave file that can be read, at least one run succeeds,
    the first success has parameters accepted for writing, the final output
    can be created and the header of the track fits, [main] returns
    normally.  A failed chunk gives no frames and no pause of its own: the
    final track has the format of the first successful segment and holds
    the frames of the successful segments, in chunk order, with a single
    block of silence of one second between two neighbours, whatever failed
    between them; the warnings printed name the failed chunks, in order,
    and are followed by the completion message.  For three chunks of which
    the second fails this is segment 1, silence, segment 3, and the warning
    names chunk 2. *)
Theorem failed_chunk_leaves_one_pause (h : host) (eng : engine)
    (full_text : str) (w : world) (p0 : params) (d0 : list byte)
    (segs : list (params * list byte)) :
  let answers :=
    engine_answers eng (List.length (invocations w))
                   (chunk_text full_text CHUNK_SIZE) in
  let silence :=
    repeat x00 (Z.to_nat (framerate p0 * nchannels p0 * sampwidth p0)) in
  let track := track_of silence ((p0, d0) :: segs) in
  Forall answer_ok answers ->
  segments_of answers = (p0, d0) :: segs ->
  writable p0 = true ->
  access h FINAL_OUTPUT = Granted ->
  header_fits p0 (Z.of_nat (List.length track)) = true ->
  snd (main h eng full_text w) = Ok tt
  /\ files (fst (main h eng full_text w)) !! FINAL_OUTPUT
     = Some (WavFile p0 track)
  /\ printed (fst (main h eng full_text w))
     = printed w ++ List.map Skipping (failed_numbers answers 1)
       ++ [Complete].
Proof.
  cbv zeta. intros Hok Hsegs Hw Hacc Hfits. unfold main.
  destruct (synthesis_loop_tracks eng (chunk_text full_text CHUNK_SIZE)
              1 [] w [] ltac:(lia) Hok ltac:(constructor))
    as (w1 & audio_files & Hloop & Hall & Hnames & Hprinted);
    [intros f []|].
  rewrite Hloop. cbn [app] in Hall. rewrite Hsegs in Hall.
  destruct audio_files as [|a rest]; [inversion Hall|].
  assert (~ In FINAL_OUTPUT (a :: rest)) as Hout.
  { intros Hin. destruct (Hnames _ Hin) as (k & _ & Heq).
    symmetry in Heq. now apply chunk_path_not_final in Heq. }
  pose proof (writable_framerate p0 Hw) as Hrate.
  pose proof (header_fits_framerate p0 _ Hfits) as Hrate'.
  assert (add_silence h PAUSE_BETWEEN_CHUNKS_MS (framerate p0)
                      (nchannels p0) (sampwidth p0)
          = Ok (repeat x00
                  (Z.to_nat (framerate p0 * nchannels p0 * sampwidth p0))))
    as Hsil.
  { unfold PAUSE_BETWEEN_CHUNKS_MS.
    rewrite add_silence_exact by (rewrite Z.abs_eq; lia).
    now rewrite Z.quot_mul by lia. }
  rewrite (merge_wav_files_all_read h _ _ _ PAUSE_BETWEEN_CHUNKS_MS _ _ _ _
             Hall Hw Hout Hacc (fun _ => Hsil) Hfits).
  unfold wave_open_rb, decode. rewrite lookup_insert_eq.
  rewrite (writable_readable p0 Hw).
  rewrite (proj2 (Z.eqb_neq _ _)) by lia.
  cbn [fst snd files printed]. rewrite lookup_insert_eq, Hprinted.
  rewrite <- app_assoc. now repeat split.
Qed.

Lemma failed_chunk_leaves_one_pause_witness :
  snd (main plain_host fails_second three_sentences empty_world) = Ok tt
  /\ files (fst (main plain_host fails_second three_sentences empty_world))
       !! FINAL_OUTPUT
     = Some (WavFile pcm_8hz (frames_a ++ repeat x00 16 ++ frames_b))
  /\ printed (fst (main plain_host fails_second three_sentences empty_world))
     = printed empty_world ++ List.map Skipping [2] ++ [Complete].
Proof.
  apply (failed_chunk_leaves_one_pause plain_host fails_second
           three_sentences empty_world pcm_8hz frames_a
           [(pcm_8hz, frames_b)]).
  - vm_compute. repeat constructor.
  - vm_compute. reflexivity.
  - reflexivity.
  - reflexivity.
  - reflexivity.
Defined.

(* ===================================================================== *)
(** ** Further properties of the pipeline *)
(* ===================================================================== *)

(** [main] writes chunk files and the final output file, nothing else:
    every other path of the file system is left as it was. *)
Theorem main_touches_only_its_files (h : host) (eng : engine)
    (full_text : str) (w : world) (path : string) :
  path <> FINAL_OUTPUT ->
  (forall k, path <> chunk_path k) ->
  files (fst (main h eng full_text w)) !! path = files w !! path.
Proof. apply main_lookup_other. Qed.

Lemma main_touches_only_its_files_witness :
  files (fst (main plain_host fails_second three_sentences empty_world))
    !! "notes.txt"
  = files empty_world !! "notes.txt".
Proof.
  apply (main_touches_only_its_files plain_host fails_second three_sentences
           empty_world "notes.txt").
  - discriminate.
  - intros k. unfold chunk_path, OUTPUT_DIR.
    repeat rewrite append_cons. discriminate.
Defined.

(** The synthesis loop sorts the chunks by the exit status of their
    run: the audio files kept for the merge are the files of the chunks
    whose run succeeded, in chunk order, and a warning is printed for each
    chunk whose run failed, in chunk order; no chunk is in both or in
    neither.  A run that raises ends the loop with its exception: the
    chunks after it are not run, and the warnings printed are those of the
    failed chunks before it. *)
Theorem loop_keeps_successes_skips_failures (eng : engine)
    (chunks : list str) (w : world) :
  let answers := engine_answers eng (List.length (invocations w)) chunks in
  let r := synthesis_loop eng 1 chunks [] w in
  snd r
  = match crash_of answers with
    | Some e => Raise e
    | None => Ok (List.map chunk_path (succeeded_numbers answers 1))
    end
  /\ printed (fst r)
     = printed w ++ List.map Skipping (failed_numbers answers 1)
  /\ (crash_of answers = None ->
      (List.length (succeeded_numbers answers 1)
       + List.length (failed_numbers answers 1)
       = List.length chunks)%nat).
Proof.
  cbv zeta.
  pose proof (synthesis_loop_sorts eng chunks 1 [] w) as (H1 & H2).
  split; [exact H1|]. split; [exact H2|].
  intros Hc.
  destruct (answers_partition eng chunks (List.length (invocations w)) 1)
    as [Hsum Hlen].
  rewrite Hc in Hsum. rewrite <- (Hlen Hc). lia.
Qed.
